(* ===================================================================== *)
(* Template signatures, invocation and yield typing                      *)
(*                                                                       *)
(* The repository consists of TypeScript declarations: what they "do" is *)
(* what the host type checker derives from them.  This development       *)
(* embeds the declarations of                                            *)
(*   packages/template/-private/invoke.d.ts                              *)
(*   packages/template/-private/built-ins/primitives.d.ts                *)
(* as definitions over a small model of the host's types, and states the *)
(* properties of the design document about them.                         *)
(* ===================================================================== *)

From stdpp Require Import base option list strings gmap fin_maps.

Open Scope string_scope.
Open Scope list_scope.

(* --------------------------------------------------------------------- *)
(* 1. Static failures                                                    *)
(* --------------------------------------------------------------------- *)

(** Every failure is a static type error of the host checker.  The names
    are the failure kinds of the design document; [ArgumentTypeMismatch]
    and [UnknownIdentifier] are the host's own rejections of an argument
    of the wrong type and of an identifier that is not in scope. *)
Inductive TypeError : Type :=
| NoSignature
| MissingArgument
| UnknownArgument
| ArityMismatch
| ArgumentTypeMismatch
| NotInvokableInline
| NotAModifier
| NotBlockAccepting
| BlockNameMismatch
| BlockParameterMismatch
| UnknownIdentifier.

Inductive Result (A : Type) : Type :=
| Ok (a : A)
| Err (e : TypeError).
Arguments Ok {A} a.
Arguments Err {A} e.

Definition bindR {A B : Type} (m : Result A) (k : A → Result B) : Result B :=
  match m with
  | Ok a => k a
  | Err e => Err e
  end.

Notation "x <- m ;; k" := (bindR m (fun x => k))
  (at level 100, m at next level, right associativity).

Definition require (b : bool) (e : TypeError) : Result unit :=
  if b then Ok tt else Err e.

Definition some_or {A : Type} (o : option A) (e : TypeError) : Result A :=
  match o with
  | Some a => Ok a
  | None => Err e
  end.

Definition mapR {A B : Type} (f : A → Result B) : list A → Result (list B) :=
  fix go (l : list A) : Result (list B) :=
    match l with
    | [] => Ok []
    | a :: l' => b <- f a ;; bs <- go l' ;; Ok (b :: bs)
    end.

(* --------------------------------------------------------------------- *)
(* 2. Host types                                                         *)
(* --------------------------------------------------------------------- *)

(** The fragment of the host's types that the declarations mention.
    [TFun tparams params rest ret] is a function type
    [<tparams>(params, ...rest) => ret]; a type parameter carries its
    declared bound ([unknown] when unconstrained).  [rest] is an array
    type (a variadic tail) or a variable standing for a tuple
    ([T extends unknown[]]). *)
#[local] Unset Elimination Schemes.
Inductive ty : Type :=
| TAny
| TUnknown
| TNever
| TVoid
| TNumber
| TString
| TBoolean
| TVar (x : string)
| TArray (elem : ty)
| TTuple (elems : list ty)
| TUnion (l r : ty)
| TFun (tparams : list (string * ty)) (params : list ty)
       (rest : option ty) (ret : ty).
#[local] Set Elimination Schemes.

Section ty_ind.

Variable P : ty → Prop.
Hypothesis case_TAny : P TAny.
Hypothesis case_TUnknown : P TUnknown.
Hypothesis case_TNever : P TNever.
Hypothesis case_TVoid : P TVoid.
Hypothesis case_TNumber : P TNumber.
Hypothesis case_TString : P TString.
Hypothesis case_TBoolean : P TBoolean.
Hypothesis case_TVar : ∀ x, P (TVar x).
Hypothesis case_TArray : ∀ e, P e → P (TArray e).
Hypothesis case_TTuple : ∀ es, Forall P es → P (TTuple es).
Hypothesis case_TUnion : ∀ l r, P l → P r → P (TUnion l r).
Hypothesis case_TFun : ∀ tps ps rest ret,
  Forall (λ tp, P tp.2) tps → Forall P ps →
  match rest with Some r => P r | None => True end →
  P ret → P (TFun tps ps rest ret).

Fixpoint ty_ind (t : ty) : P t :=
  match t with
  | TAny => case_TAny
  | TUnknown => case_TUnknown
  | TNever => case_TNever
  | TVoid => case_TVoid
  | TNumber => case_TNumber
  | TString => case_TString
  | TBoolean => case_TBoolean
  | TVar x => case_TVar x
  | TArray e => case_TArray e (ty_ind e)
  | TTuple es =>
      case_TTuple es
        ((fix all (l : list ty) : Forall P l :=
            match l with
            | [] => List.Forall_nil _
            | e :: l' => List.Forall_cons _ e l' (ty_ind e) (all l')
            end) es)
  | TUnion l r => case_TUnion l r (ty_ind l) (ty_ind r)
  | TFun tps ps rest ret =>
      case_TFun tps ps rest ret
        ((fix all (l : list (string * ty)) : Forall (λ tp, P tp.2) l :=
            match l with
            | [] => List.Forall_nil _
            | tp :: l' =>
                List.Forall_cons (λ tp, P tp.2) tp l' (ty_ind tp.2) (all l')
            end) tps)
        ((fix all (l : list ty) : Forall P l :=
            match l with
            | [] => List.Forall_nil _
            | e :: l' => List.Forall_cons _ e l' (ty_ind e) (all l')
            end) ps)
        (match rest as o
               return match o with Some r => P r | None => True end
         with
         | Some r => ty_ind r
         | None => I
         end)
        (ty_ind ret)
  end.

End ty_ind.

Fixpoint ty_size (t : ty) : nat :=
  match t with
  | TArray e => S (ty_size e)
  | TTuple es => S (foldr (λ e n, ty_size e + n) 0 es)
  | TUnion l r => S (ty_size l + ty_size r)
  | TFun tps ps rest ret =>
      S (foldr (λ tp n, ty_size tp.2 + n) 0 tps
         + foldr (λ e n, ty_size e + n) 0 ps
         + match rest with Some r => ty_size r | None => 0 end
         + ty_size ret)
  | _ => 1
  end.

Definition rest_elem (rest : option ty) : option ty :=
  match rest with
  | Some (TArray e) => Some e
  | Some _ => Some TAny
  | None => None
  end.

Fixpoint forallb2 {A B : Type} (f : A → B → bool) (l : list A) (k : list B)
  : bool :=
  match l, k with
  | [], [] => true
  | a :: l', b :: k' => f a b && forallb2 f l' k'
  | _, _ => false
  end.

(** Pairwise over the common prefix of two lists. *)
Fixpoint prefix_forallb {A B : Type} (f : A → B → bool) (l : list A)
  (k : list B) : bool :=
  match l, k with
  | a :: l', b :: k' => f a b && prefix_forallb f l' k'
  | _, _ => true
  end.

(** The type of the parameter in position [i] of a parameter list with
    a variadic tail. *)
Definition param_at (ps : list ty) (rest : option ty) (i : nat)
  : option ty :=
  match ps !! i with
  | Some p => Some p
  | None => rest_elem rest
  end.

(** The host's comparison of a signature [(ps, ...rs) => r] with a
    signature [(qs, ...rt) => r'] that is expected in its place: the
    first may not ask for more parameters than the second passes, the
    parameters are compared position by position where both signatures
    have one, and the results by [ret]. *)
Definition signature_related (param ret : ty → ty → bool)
  (ps : list ty) (rs : option ty) (r : ty)
  (qs : list ty) (rt : option ty) (r' : ty) : bool :=
  (match rt with Some _ => true | None => false end
   || (length ps <=? length qs)%nat)
  && forallb (λ i, match param_at ps rs i, param_at qs rt i with
                   | Some p, Some q => param p q
                   | _, _ => true
                   end)
             (seq 0 (S (max (length ps) (length qs))))
  && ret r r'.

Definition is_void (t : ty) : bool :=
  match t with
  | TVoid => true
  | _ => false
  end.

(** A parameter of type [p] where one of type [q] is expected.  Under
    [strictVariance] the expected type has to be assignable to the
    offered one; otherwise either direction will do.  When both are
    function types (the parameter is a callback), the host compares
    them one way whatever the setting: the parameters of the two
    callbacks are compared in one direction only, and only their
    results in both unless [strictVariance] is set.  A callback that
    returns nothing accepts any result. *)
Definition param_related (strictVariance : bool) (sub : ty → ty → bool)
  (p q : ty) : bool :=
  match p, q with
  | TFun _ ps rs r, TFun _ qs rt r' =>
      signature_related
        (λ a b, sub b a)
        (λ a b, is_void b || sub a b || (negb strictVariance && sub b a))
        qs rt r' ps rs r
  | _, _ => sub q p || (negb strictVariance && sub p q)
  end.

(** ** Substitution of type parameters *)

(** Replacing the variable that stands for the tail of a parameter list
    by a tuple turns the elements of the tuple into ordinary parameters;
    any other tail is substituted into. *)
Definition spread_rest (σ : gmap string ty) (sub : ty → ty)
  (params : list ty) (rest : option ty) : list ty * option ty :=
  match rest with
  | Some (TVar x) =>
      match σ !! x with
      | Some (TTuple es) => (params ++ es, None)
      | Some t => (params, Some t)
      | None => (params, rest)
      end
  | Some r => (params, Some (sub r))
  | None => (params, None)
  end.

Fixpoint ty_subst (σ : gmap string ty) (t : ty) : ty :=
  match t with
  | TVar x => default (TVar x) (σ !! x)
  | TArray e => TArray (ty_subst σ e)
  | TTuple es => TTuple (ty_subst σ <$> es)
  | TUnion l r => TUnion (ty_subst σ l) (ty_subst σ r)
  | TFun tps ps rest ret =>
      (* the function's own parameters shadow those of [σ] *)
      let σ' := foldr (λ tp m, delete tp.1 m) σ tps in
      let pr := spread_rest σ' (ty_subst σ') (ty_subst σ' <$> ps) rest in
      TFun ((λ tp, (tp.1, ty_subst σ' tp.2)) <$> tps) pr.1 pr.2
           (ty_subst σ' ret)
  | _ => t
  end.

(** Whether [σ] fixes every type variable of a type. *)
Fixpoint closed_under (σ : gmap string ty) (t : ty) : bool :=
  match t with
  | TVar x => bool_decide (is_Some (σ !! x))
  | TArray e => closed_under σ e
  | TTuple es => forallb (closed_under σ) es
  | TUnion l r => closed_under σ l && closed_under σ r
  | TFun tps ps rest ret =>
      forallb (closed_under σ) ps
      && match rest with Some r => closed_under σ r | None => true end
      && closed_under σ ret
  | _ => true
  end.

(** A type parameter that no argument fixes degrades to its declared
    bound.  A bound may mention other parameters of the list, as in
    [<T, U extends T>]: the host replaces these by their bounds in turn,
    as often as there are parameters, and a parameter that is still
    left, in a circular bound, by [any]; a parameter that [σ] fixes is
    replaced by what it is fixed to. *)
Definition degrade (tps : list (string * ty)) (σ : gmap string ty)
  : gmap string ty :=
  let bound : gmap string ty :=
    filter (λ kv, kv.1 ∉ dom σ) (list_to_map tps) in
  let erased : gmap string ty := (λ _, TAny) <$> bound in
  σ ∪ ((λ b, ty_subst σ
               (ty_subst erased
                  (Nat.iter (length tps) (ty_subst bound) b)))
       <$> bound).

(* --------------------------------------------------------------------- *)
(* 3. Template signatures                                                *)
(* --------------------------------------------------------------------- *)

(** A template signature has the shape
      (args: NamedArgs, ...positional: PositionalArgs)
        => (blocks: BlockCallbacks) => CompletionType
    (README, "Template Signatures"). *)

Record ArgSpec : Type := {
  arg_optional : bool;
  arg_type : ty
}.

(** One member of a blocks hash, [name(params, ...rest): BlockResult],
    optional when declared [name?]. *)
Record BlockEntry : Type := {
  block_optional : bool;
  block_params : list ty;
  block_rest : option ty
}.

Abbreviation BlockSet := (gmap string BlockEntry).

(** Modelled from the spec: [ReturnsValue], [AcceptsBlocks] and
    [CreatesModifier] are declared in [-private/signature.d.ts], which is
    not part of the sources at hand.  The design document gives them as
    a closed, tag-discriminated set of three mutually exclusive
    completion kinds; [AcceptsBlocks] carries the blocks hash that
    [Parameters<T>[0]] reads off in [invokeBlock], and [ReturnsValue]
    the type that [ReturnType<T>[typeof Return]] reads off in
    [invokeInline]. *)
Inductive Completion (V : Type) : Type :=
| ReturnsValue (T : V)
| AcceptsBlocks (blocks : BlockSet)
| CreatesModifier.
Arguments ReturnsValue {V} T.
Arguments AcceptsBlocks {V} blocks.
Arguments CreatesModifier {V}.

(** One call signature.  [restArgs] is the variadic tail of the
    positional parameters: an array type ([...items: T[]]) or a variable
    standing for a tuple ([...values: T]). *)
Record Signature : Type := {
  typeParameters : list (string * ty);
  namedArgs : gmap string ArgSpec;
  positionalArgs : list ty;
  restArgs : option ty;
  completionKind : Completion ty
}.

(** The function type of an entity lists one call signature, or several
    when it is overloaded (as [fn] is). *)
Abbreviation TemplateSignature := (list Signature).

(** [export type Invokable<T extends AnySignature> = T;]
    (invoke.d.ts, line 17). *)
Definition Invokable (T : TemplateSignature) : TemplateSignature := T.

Definition entry_subst (σ : gmap string ty) (e : BlockEntry) : BlockEntry :=
  let pr := spread_rest σ (ty_subst σ) (ty_subst σ <$> block_params e)
                         (block_rest e) in
  {| block_optional := block_optional e;
     block_params := pr.1;
     block_rest := pr.2 |}.

Definition completion_subst (σ : gmap string ty) (c : Completion ty)
  : Completion ty :=
  match c with
  | ReturnsValue T => ReturnsValue (ty_subst σ T)
  | AcceptsBlocks bs => AcceptsBlocks (entry_subst σ <$> bs)
  | CreatesModifier => CreatesModifier
  end.

(** ** Blocks and yields *)

(** Modelled from the spec: [BlockYield], [toBlock], [BlockResult] and
    [YieldsFromBlock] are declared in [-private/blocks.d.ts], which is
    not part of the sources at hand.  "The [toBlock] function returns a
    type capturing both the name and parameter types of the block being
    yielded to, and multiple yields will result in a union of such
    types" (README); the test of [let] writes that type
    [BlockYield<'body', [number, string]>].  A union of such types is
    kept as the list of its members. *)
Record BlockYield : Type := {
  yield_to : string;
  yield_values : list ty
}.

Definition toBlock (to : string) (values : list ty) : BlockYield :=
  {| yield_to := to; yield_values := values |}.

(** The type of one callback of a blocks hash: a generator function
    with its parameter types and the union of what its body yields. *)
Record BlockImpl : Type := {
  impl_params : list ty;
  impl_yields : list BlockYield
}.

Definition YieldsFromBlock (impl : BlockImpl) : list BlockYield :=
  impl_yields impl.

(** ** Entities *)

(** A value in template scope either carries a template signature (a
    component, helper, modifier or built-in) or is a plain value. *)
Inductive Entity : Type :=
| HasSignature (sig : TemplateSignature)
| PlainValue (T : ty).

(** Modelled from the spec: [resolve], [resolveOrReturn] and
    [ResolveSignature] are declared in [-private/resolution.d.ts], which
    is not part of the sources at hand.  [resolve] turns a value into
    the function representing its signature and fails with
    [NoSignature] on a value that has none. *)
Definition resolve (entity : Entity) : Result TemplateSignature :=
  match entity with
  | HasSignature sig => Ok sig
  | PlainValue _ => Err NoSignature
  end.

(** Modelled from the spec: "If the value it receives doesn't have an
    associated template signature, it's treated as though it's a
    zero-arg helper that returns the appropriate type instead"
    (README, "Emitting Values"). *)
Definition resolveOrReturn (entity : Entity) : TemplateSignature :=
  match entity with
  | HasSignature sig => sig
  | PlainValue T =>
      [ {| typeParameters := [];
           namedArgs := ∅;
           positionalArgs := [];
           restArgs := None;
           completionKind := ReturnsValue T |} ]
  end.

(** Modelled from the spec: the type-level counterpart of [resolve].
    A conditional type that infers from an overloaded function reads its
    last call signature. *)
Definition ResolveSignature (entity : Entity) : option Signature :=
  match entity with
  | HasSignature sig => last sig
  | PlainValue _ => None
  end.

(** ** Template bodies

    A template body, and the body of a block, is a generator whose
    statements hand values to the caller (README, "Yielding to the
    Caller"):
      yield toBlock(to, ...values);
      yield invokeBlock(resolve(callee)(named, ...positional),
                        { *name(params) { body }, ... }, ...names);
    An argument is an identifier in scope or an expression whose type the
    host has already determined. *)
Inductive expr : Type :=
| EVar (x : string)
| EOfType (T : ty).

(** A callback of a blocks hash as it is written: its parameters, each
    with the type annotation it may carry, and its body. *)
Record Callback (S : Type) : Type := {
  cb_params : list (string * option ty);
  cb_body : list S
}.
Arguments cb_params {S} c.
Arguments cb_body {S} c.

#[local] Unset Elimination Schemes.
Inductive stmt : Type :=
| SYield (to : string) (values : list expr)
| SInvokeBlock (callee : Entity) (named : gmap string expr)
    (positional : list expr) (blocks : list (string * Callback stmt))
    (names : list string).
#[local] Set Elimination Schemes.

Section stmt_ind.

Variable P : stmt → Prop.
Hypothesis case_SYield : ∀ to values, P (SYield to values).
Hypothesis case_SInvokeBlock : ∀ callee named positional blocks names,
  Forall (λ b, Forall P (cb_body b.2)) blocks →
  P (SInvokeBlock callee named positional blocks names).

Fixpoint stmt_ind (s : stmt) : P s :=
  match s with
  | SYield to values => case_SYield to values
  | SInvokeBlock callee named positional blocks names =>
      case_SInvokeBlock callee named positional blocks names
        ((fix all (l : list (string * Callback stmt))
            : Forall (λ b, Forall P (cb_body b.2)) l :=
            match l with
            | [] => List.Forall_nil _
            | b :: l' =>
                List.Forall_cons (λ b, Forall P (cb_body b.2)) b l'
                  ((fix body (k : list stmt) : Forall P k :=
                      match k with
                      | [] => List.Forall_nil _
                      | s' :: k' =>
                          List.Forall_cons _ s' k' (stmt_ind s') (body k')
                      end) (cb_body b.2))
                  (all l')
            end) blocks)
  end.

End stmt_ind.

(* --------------------------------------------------------------------- *)
(* 4. Built-in primitives (built-ins/primitives.d.ts)                    *)
(* --------------------------------------------------------------------- *)

(** The signatures of the built-ins, as data.  [each-in] and [on] are
    declared with [keyof] and indexed access types, which are outside
    the fragment of types above; nothing below depends on them.  The
    [component] helper computes its signature from that of its argument
    and follows the host checker. *)

Definition no_args : gmap string ArgSpec := ∅.

Definition mandatory (params : list ty) (rest : option ty) : BlockEntry :=
  {| block_optional := false; block_params := params; block_rest := rest |}.

Definition optional (params : list ty) (rest : option ty) : BlockEntry :=
  {| block_optional := true; block_params := params; block_rest := rest |}.

(** [<T>(args: {}, ...items: T[]) => ReturnsValue<T[]>] *)
Definition ArrayHelper : TemplateSignature := Invokable
  [ {| typeParameters := [("T", TUnknown)];
       namedArgs := no_args;
       positionalArgs := [];
       restArgs := Some (TArray (TVar "T"));
       completionKind := ReturnsValue (TArray (TVar "T")) |} ].

(** [(args: {}, ...items: string[]) => ReturnsValue<string>] *)
Definition ConcatHelper : TemplateSignature := Invokable
  [ {| typeParameters := [];
       namedArgs := no_args;
       positionalArgs := [];
       restArgs := Some (TArray TString);
       completionKind := ReturnsValue TString |} ].

(** [(args: {}) => ReturnsValue<void>] *)
Definition DebuggerHelper : TemplateSignature := Invokable
  [ {| typeParameters := [];
       namedArgs := no_args;
       positionalArgs := [];
       restArgs := None;
       completionKind := ReturnsValue TVoid |} ].

(** [<T>(args: { key?: string }, items: T[]) => AcceptsBlocks<{
       default(item: T, index: number): BlockResult;
       inverse?(): BlockResult;
     }>] *)
Definition EachHelper : TemplateSignature := Invokable
  [ {| typeParameters := [("T", TUnknown)];
       namedArgs := {[ "key" := {| arg_optional := true; arg_type := TString |} ]};
       positionalArgs := [TArray (TVar "T")];
       restArgs := None;
       completionKind :=
         AcceptsBlocks
           (<[ "default" := mandatory [TVar "T"; TNumber] None ]>
              {[ "inverse" := optional [] None ]}) |} ].

(** One overload of [fn] for [n] pre-bound arguments [A1 .. An]:
    [<A1, .., An, Ret, Args extends unknown[]>(
        args: {}, f: (a1: A1, .., an: An, ...rest: Args) => Ret,
        a1: A1, .., an: An
     ): ReturnsValue<(...rest: Args) => Ret>] *)
Definition fn_overload (prebound : list string) : Signature :=
  {| typeParameters :=
       ((λ x, (x, TUnknown)) <$> prebound)
       ++ [("Ret", TUnknown); ("Args", TArray TUnknown)];
     namedArgs := no_args;
     positionalArgs :=
       TFun [] (TVar <$> prebound) (Some (TVar "Args")) (TVar "Ret")
       :: (TVar <$> prebound);
     restArgs := None;
     completionKind :=
       ReturnsValue (TFun [] [] (Some (TVar "Args")) (TVar "Ret")) |}.

(** The five overloads of lines 90 to 94, in their order. *)
Definition FnHelper : TemplateSignature := Invokable
  [ fn_overload [];
    fn_overload ["A"];
    fn_overload ["A"; "B"];
    fn_overload ["A"; "B"; "C"];
    fn_overload ["A"; "B"; "C"; "D"] ].

(** [<T extends unknown[]>(args: {}, ...values: T) => AcceptsBlocks<{
       default(...values: T): BlockResult;
     }>] *)
Definition LetHelper : TemplateSignature := Invokable
  [ {| typeParameters := [("T", TArray TUnknown)];
       namedArgs := no_args;
       positionalArgs := [];
       restArgs := Some (TVar "T");
       completionKind :=
         AcceptsBlocks {[ "default" := mandatory [] (Some (TVar "T")) ]} |} ].

(** [<T>(args: {}, value: T) => AcceptsBlocks<{
       default(value: T): BlockResult;
       inverse?(): BlockResult;
     }>] *)
Definition WithHelper : TemplateSignature := Invokable
  [ {| typeParameters := [("T", TUnknown)];
       namedArgs := no_args;
       positionalArgs := [TVar "T"];
       restArgs := None;
       completionKind :=
         AcceptsBlocks
           (<[ "default" := mandatory [TVar "T"] None ]>
              {[ "inverse" := optional [] None ]}) |} ].

(* --------------------------------------------------------------------- *)
(* 5. The host checker                                                   *)
(* --------------------------------------------------------------------- *)

(** ** Assignability

    [assignable s t] decides whether a value of type [s] may be used
    where [t] is expected.  The compiler option [strictFunctionTypes]
    is a parameter of the whole development: with it, the parameters of
    function types are compared contravariantly, without it either
    direction is enough.  (The members of a block hash are declared in
    method form and are compared by [impl_accepts] below.)

    The comparison swaps its arguments at function parameters, so it
    recurses on a fuel that [assignable] sets to the size of both
    types.  A function is assignable to one whose result is [void]
    whatever it returns.  The type parameters of a function type are
    not instantiated here: a function type with type parameters is
    compared as it stands, its parameters as opaque types. *)
Section HostChecker.

Variable strictFunctionTypes : bool.

(** One step of the comparison, with [sub] for the comparison of the
    parts. *)
Definition assignable_step (sub : ty → ty → bool) (s t : ty) : bool :=
  match t with
  | TAny | TUnknown => true
  | _ =>
    match s with
    | TAny => match t with TNever => false | _ => true end
    | TNever => true
    | TUnion a b => sub a t && sub b t
    | _ =>
      match t with
      | TUnion c d => sub s c || sub s d
      | _ =>
        match s, t with
        | TVoid, TVoid | TNumber, TNumber
        | TString, TString | TBoolean, TBoolean => true
        | TVar x, TVar y => bool_decide (x = y)
        | TArray a, TArray b => sub a b
        | TTuple es, TTuple fs => forallb2 sub es fs
        | TTuple es, TArray b => forallb (λ e, sub e b) es
        | TFun _ ps rs r, TFun _ qs rt r' =>
            signature_related
              (param_related strictFunctionTypes sub)
              (λ a b, is_void b || sub a b)
              ps rs r qs rt r'
        | _, _ => false
        end
      end
    end
  end.

Fixpoint assignable_fuel (n : nat) (s t : ty) {struct n} : bool :=
  match n with
  | 0 => false
  | S n' => assignable_step (assignable_fuel n') s t
  end.

Definition assignable (s t : ty) : bool :=
  assignable_fuel (ty_size s + ty_size t) s t.

(** ** Inference of type parameters

    Calling a signature fixes its type parameters from the types of the
    arguments: [unify contra p a σ] matches the declared type [p], whose
    variables are the parameters being inferred, against the supplied
    type [a].  The first occurrence of a parameter fixes it; a later one
    only has to agree with it ("unifies each [typeParameters] member
    against the concrete types supplied at its first occurrence", in
    the words of the design document; the host itself collects a
    candidate from every occurrence and takes their common supertype,
    which is the first one when the others are assignable to it and it
    is not assignable to them).  [contra] is set at the parameters of a
    function type, where the roles of supplied and expected type swap.

    [inst σ pps a] prepares a function value [a] for a pattern whose
    parameters are [pps]; see [instantiate_in_context]. *)
Definition agrees (contra : bool) (supplied expected : ty) : bool :=
  if contra then assignable expected supplied
  else assignable supplied expected.

Definition unify_with (inst : gmap string ty → list ty → ty → ty)
  : bool → ty → ty → gmap string ty → option (gmap string ty) :=
  fix unify (contra : bool) (p a : ty) (σ : gmap string ty)
    {struct p} : option (gmap string ty) :=
    match p with
    | TVar x =>
        match σ !! x with
        | Some t => if agrees contra a t then Some σ else None
        | None => Some (<[x := a]> σ)
        end
    | TArray p' =>
        match a with
        | TArray a' => unify contra p' a' σ
        | TTuple es =>
            foldl (λ acc e, match acc with
                            | Some σ' => unify contra p' e σ'
                            | None => None
                            end) (Some σ) es
        | _ => None
        end
    | TTuple ps =>
        match a with
        | TTuple es =>
            if bool_decide (length ps = length es) then
              (fix each (ps : list ty) (es : list ty) (σ : gmap string ty)
                 : option (gmap string ty) :=
                 match ps, es with
                 | p' :: ps', e :: es' =>
                     match unify contra p' e σ with
                     | Some σ' => each ps' es' σ'
                     | None => None
                     end
                 | _, _ => Some σ
                 end) ps es σ
            else None
        | _ => None
        end
    | TFun _ pps prest pret =>
        match inst σ pps a with
        | TFun _ aps arest aret =>
            let leftover := drop (length pps) aps in
            match
              (fix each (ps : list ty) (es : list ty) (σ : gmap string ty)
                 : option (gmap string ty) :=
                 match ps, es with
                 | p' :: ps', e :: es' =>
                     match unify (negb contra) p' e σ with
                     | Some σ' => each ps' es' σ'
                     | None => None
                     end
                 | _, _ => Some σ
                 end) pps aps σ
            with
            | Some σ1 =>
                match
                  match prest with
                  | Some prest' =>
                      match arest with
                      | None =>
                          unify (negb contra) prest' (TTuple leftover) σ1
                      | Some r =>
                          match leftover with
                          | [] => unify (negb contra) prest' r σ1
                          | _ :: _ => None
                          end
                      end
                  | None =>
                      match leftover with
                      | [] => Some σ1
                      | _ :: _ => None
                      end
                  end
                with
                | Some σ2 => unify contra pret aret σ2
                | None => None
                end
            | None => None
            end
        | _ => None
        end
    | _ => if agrees contra a (ty_subst σ p) then Some σ else None
    end.

Definition is_generic (a : ty) : bool :=
  match a with
  | TFun (_ :: _) _ _ _ => true
  | _ => false
  end.

(** A generic function passed as an argument is instantiated in the
    context of the parameter it is passed for: its own type parameters
    are inferred from those parameter types of the pattern that the
    other arguments have already fixed, and the ones left over degrade
    to their bounds. *)
Definition instantiate_in_context (σ : gmap string ty) (pps : list ty)
  (a : ty) : ty :=
  match a with
  | TFun (tp :: tps) aps arest aret =>
      let own := tp :: tps in
      let τ :=
        foldl (λ τ pq,
                 if closed_under σ pq.2 then
                   default τ (unify_with (λ _ _ b, b) false pq.1
                                         (ty_subst σ pq.2) τ)
                 else τ)
              ∅ (zip aps pps) in
      let θ := degrade own (filter (λ kv, kv.1 ∈ own.*1) τ) in
      let pr := spread_rest θ (ty_subst θ) (ty_subst θ <$> aps) arest in
      TFun [] pr.1 pr.2 (ty_subst θ aret)
  | _ => a
  end.

Definition unify : bool → ty → ty → gmap string ty → option (gmap string ty) :=
  unify_with instantiate_in_context.

(** ** Binding arguments

    "Once the signature is resolved, any passed named and/or positional
    arguments are bound by calling the signature.  This fixes the values
    of any type parameters that might exist in the signature." (README)

    [bind] is that call: the host checks the number of positional
    arguments against [positionalArgs] and [restArgs], then the named
    arguments against [namedArgs], a key that is not declared before a
    declared one that is missing, infers the type parameters and
    returns the completion with the parameters replaced.  The named
    arguments are passed as an object literal, and the host accepts any
    key where the declared type of the named arguments is [{}]. *)

Definition unify_arg (p a : ty) (σ : Result (gmap string ty))
  : Result (gmap string ty) :=
  σ' <- σ ;; some_or (unify false p a σ') ArgumentTypeMismatch.

Definition bind_named (declared : gmap string ArgSpec) (named : gmap string ty)
  (σ : gmap string ty) : Result (gmap string ty) :=
  foldl (λ acc ks,
           match named !! ks.1 with
           | Some a => unify_arg (arg_type ks.2) a acc
           | None => acc
           end)
        (Ok σ) (map_to_list declared).

(** Generic functions among the arguments are looked at after the other
    arguments; [bind_positional generic] visits the arguments of one
    kind. *)
Definition bind_positional (generic : bool) (declared : list ty)
  (positional : list ty) (σ : Result (gmap string ty))
  : Result (gmap string ty) :=
  foldl (λ acc pa,
           if bool_decide (is_generic pa.2 = generic)
           then unify_arg pa.1 pa.2 acc
           else acc)
        σ (zip declared positional).

Definition bind_rest (rest : option ty) (extra : list ty)
  (σ : Result (gmap string ty)) : Result (gmap string ty) :=
  match rest with
  | Some r => unify_arg r (TTuple extra) σ
  | None => σ
  end.

Definition bind (sig : Signature) (named : gmap string ty)
  (positional : list ty) : Result (Completion ty) :=
  _ <- require (match restArgs sig with
              | Some _ => length (positionalArgs sig) <=? length positional
              | None => length (positionalArgs sig) =? length positional
              end)%nat
             ArityMismatch ;;
  _ <- require (bool_decide (dom (namedArgs sig) = ∅
                             ∨ dom named ⊆ dom (namedArgs sig)))
             UnknownArgument ;;
  _ <- require (bool_decide (map_Forall
                (λ k spec, arg_optional spec = true ∨ is_Some (named !! k))
                (namedArgs sig)))
             MissingArgument ;;
  σ <- bind_positional true (positionalArgs sig) positional
         (bind_rest (restArgs sig)
            (drop (length (positionalArgs sig)) positional)
            (bind_positional false (positionalArgs sig) positional
               (bind_named (namedArgs sig) named ∅))) ;;
  Ok (completion_subst (degrade (typeParameters sig) σ)
                       (completionKind sig)).

(** The host tries the overloads in the order of their declaration and
    takes the first one that accepts the arguments.  When none does, it
    reports the failure of the last overload whose number of parameters
    fits, and the mismatch in number when there is no such overload. *)
Fixpoint call (sigs : TemplateSignature) (named : gmap string ty)
  (positional : list ty) : Result (Completion ty) :=
  match sigs with
  | [] => Err NoSignature
  | [sig] => bind sig named positional
  | sig :: sigs' =>
      match bind sig named positional with
      | Ok c => Ok c
      | Err e =>
          match call sigs' named positional with
          | Ok c => Ok c
          | Err ArityMismatch => Err e
          | Err e' => Err e'
          end
      end
  end.

(** ** Invocation (invoke.d.ts) *)

(** [export declare function invokeInline<T extends ReturnsValue<any>>(
       value: T
     ): ReturnType<T>[typeof Return];]
    The constraint on [T] rejects a value of another completion kind. *)
Definition invokeInline {V : Type} (value : Completion V) : Result V :=
  match value with
  | ReturnsValue T => Ok T
  | _ => Err NotInvokableInline
  end.

(** [export declare function invokeModifier<T extends CreatesModifier>(
       value: T): void;] *)
Definition invokeModifier {V : Type} (value : Completion V) : Result unit :=
  match value with
  | CreatesModifier => Ok tt
  | _ => Err NotAModifier
  end.

(** The members of a blocks hash are declared in method form
    ([default(item: T, index: number): BlockResult]), and the host
    compares the parameters of methods without [strictFunctionTypes],
    whatever its setting: a parameter of type [p] is accepted for a
    declared parameter of type [q] when one of the types is assignable
    to the other, except that a parameter that is itself a function is
    compared one way, as [param_related] has it. *)
Definition related (p q : ty) : bool :=
  param_related false assignable p q.

(** Whether a callback of type [impl] is assignable to the member [e]:
    it may declare fewer parameters, never more than [e] passes. *)
Definition impl_accepts (impl : BlockImpl) (e : BlockEntry) : bool :=
  match rest_elem (block_rest e) with
  | Some r =>
      prefix_forallb related (impl_params impl) (block_params e)
      && forallb (λ p, related p r)
           (drop (length (block_params e)) (impl_params impl))
  | None =>
      (length (impl_params impl) <=? length (block_params e))%nat
      && prefix_forallb related (impl_params impl) (block_params e)
  end.

(** [export declare function invokeBlock<
       T extends AcceptsBlocks<any>, Impls extends Parameters<T>[0]
     >(value: T, blocks: Impls,
       ...names: Array<keyof Parameters<T>[0]>
     ): YieldsFromBlock<Impls[keyof Impls]>;]

    [T extends AcceptsBlocks<any>] rejects the other completion kinds.
    Every element of [names] has to be a key of the blocks hash of [T].
    [Impls extends Parameters<T>[0]] asks for a callback for every
    member that is not optional, and for every callback of a declared
    member to be assignable to it; as the comment in the source says, it
    does not reject further keys in [blocks], which is why the names are
    passed as well.  A hash that has callbacks, but none under a
    declared name, is rejected all the same when the declared members
    are all optional (the host's check of weak types).  The result is
    the union of what the callbacks yield.  A call that fails in
    several of these respects is rejected for the first of them in the
    order below; the host reports what is wrong with the hash before
    what is wrong with the names. *)
(** A blocks hash all of whose members are optional, and that has one
    at least, is a weak type for the host: an object that has
    properties, but none of the declared ones, is not assignable to
    it. *)
Definition weak (declared : BlockSet) : bool :=
  bool_decide (dom declared ≠ ∅
               ∧ map_Forall (λ _ e, block_optional e = true) declared).

(** Whether the hash [blocks] is empty or has a callback under a
    declared name. *)
Definition in_common (declared : BlockSet)
  (blocks : list (string * BlockImpl)) : bool :=
  match blocks with
  | [] => true
  | _ :: _ => existsb (λ b, bool_decide (b.1 ∈ dom declared)) blocks
  end.

Definition invokeBlock (value : Completion ty)
  (blocks : list (string * BlockImpl)) (names : list string)
  : Result (list BlockYield) :=
  match value with
  | AcceptsBlocks declared =>
      _ <- require (forallb (λ n, bool_decide (n ∈ dom declared)) names)
                 BlockNameMismatch ;;
      _ <- require (bool_decide (map_Forall
                    (λ k e, block_optional e = true ∨ k ∈ blocks.*1)
                    declared))
                 BlockNameMismatch ;;
      _ <- require (negb (weak declared) || in_common declared blocks)
                 BlockNameMismatch ;;
      _ <- require (forallb (λ b, match declared !! b.1 with
                                | Some e => impl_accepts b.2 e
                                | None => true
                                end) blocks)
                 BlockParameterMismatch ;;
      Ok (mjoin (YieldsFromBlock <$> blocks.*2))
  | _ => Err NotBlockAccepting
  end.

(** ** Typing template bodies

    The host types the callbacks before [invokeBlock] sees them: an
    unannotated parameter takes the type of the parameter of the member
    the callback is written for, and the generator's yield type is the
    union of the types of its [yield] operands. *)
Definition type_of (Γ : gmap string ty) (e : expr) : Result ty :=
  match e with
  | EVar x => some_or (Γ !! x) UnknownIdentifier
  | EOfType T => Ok T
  end.

Definition type_named (Γ : gmap string ty) (named : gmap string expr)
  : Result (gmap string ty) :=
  kts <- mapR (λ ke, T <- type_of Γ ke.2 ;; Ok (ke.1, T))
              (map_to_list named) ;;
  Ok (list_to_map kts).

Definition expected_blocks (value : Completion ty) : BlockSet :=
  match value with
  | AcceptsBlocks declared => declared
  | _ => ∅
  end.

Definition contextual_type (e : option BlockEntry) (i : nat) : ty :=
  match e with
  | Some e =>
      match block_params e !! i with
      | Some T => T
      | None => default TAny (rest_elem (block_rest e))
      end
  | None => TAny
  end.

Definition param_types (e : option BlockEntry)
  (params : list (string * option ty)) : list ty :=
  imap (λ i p, default (contextual_type e i) p.2) params.

Definition callback_env (Γ : gmap string ty) (e : option BlockEntry)
  (params : list (string * option ty)) : gmap string ty :=
  foldl (λ m xT, <[xT.1 := xT.2]> m) Γ
        (zip params.*1 (param_types e params)).

Definition check_body_with
  (check : gmap string ty → stmt → Result (list BlockYield))
  (Γ : gmap string ty) (body : list stmt) : Result (list BlockYield) :=
  ys <- mapR (check Γ) body ;; Ok (mjoin ys).

Definition infer_block_with
  (check : gmap string ty → stmt → Result (list BlockYield))
  (Γ : gmap string ty) (declared : BlockSet)
  (b : string * Callback stmt) : Result (string * BlockImpl) :=
  let e := declared !! b.1 in
  ys <- check_body_with check (callback_env Γ e (cb_params b.2))
                        (cb_body b.2) ;;
  Ok (b.1, {| impl_params := param_types e (cb_params b.2);
              impl_yields := ys |}).

Fixpoint check_stmt (Γ : gmap string ty) (s : stmt) {struct s}
  : Result (list BlockYield) :=
  match s with
  | SYield to values =>
      Ts <- mapR (type_of Γ) values ;;
      Ok [toBlock to Ts]
  | SInvokeBlock callee named positional blocks names =>
      sig <- resolve callee ;;
      nargs <- type_named Γ named ;;
      pargs <- mapR (type_of Γ) positional ;;
      value <- call sig nargs pargs ;;
      impls <- mapR (infer_block_with check_stmt Γ (expected_blocks value))
                    blocks ;;
      invokeBlock value impls names
  end.

Definition check_body : gmap string ty → list stmt → Result (list BlockYield) :=
  check_body_with check_stmt.

Definition infer_block
  : gmap string ty → BlockSet → string * Callback stmt
    → Result (string * BlockImpl) :=
  infer_block_with check_stmt.

(** ** Templates *)

Definition merge_type (old new : ty) : ty :=
  if assignable new old then old
  else if assignable old new then new
  else TUnion old new.

Fixpoint merge_params (old new : list ty) : list ty :=
  match old, new with
  | o :: old', n :: new' => merge_type o n :: merge_params old' new'
  | [], l | l, [] => l
  end.

(** The blocks that a body yields to on every control path: those of
    the [yield toBlock(..)] statements of the body itself.  What a
    callback of an [invokeBlock] statement yields is not among them:
    the callback runs as often as the value it is handed to calls it,
    which may be never. *)
Definition yields_for_certain (body : list stmt) : gset string :=
  list_to_set (omap (λ s, match s with
                          | SYield to _ => Some to
                          | SInvokeBlock _ _ _ _ _ => None
                          end) body).

Definition add_yield (certain : gset string) (bs : BlockSet) (y : BlockYield)
  : BlockSet :=
  <[ yield_to y :=
       {| block_optional := bool_decide (yield_to y ∉ certain);
          block_params :=
            match bs !! yield_to y with
            | Some e => merge_params (block_params e) (yield_values y)
            | None => yield_values y
            end;
          block_rest := None |} ]> bs.

Definition BlocksFromYields (certain : gset string) (ys : list BlockYield)
  : BlockSet :=
  foldl (add_yield certain) ∅ ys.

(** Modelled from the spec: [template] is declared in
    [-private/template.d.ts], which is not part of the sources at hand.
    "The final [template(body) -> Signature] wrapper takes this
    aggregated [BlockSet], marks every block name that is not reachable
    on every control path as optional (since it may go un-yielded on
    some path), and emits that as the produced template's
    [AcceptsBlocks<BlockSet>] completion" (spec, 4.6).  In the README's
    example the yield is in the callback of [each], and the block is
    optional:
      [(args: unknown) => AcceptsBlocks<{ default?(arg: string): BlockResult }>].
    The named arguments of the result come from the class that contains
    the template. *)
Definition template (Γ : gmap string ty) (args : gmap string ArgSpec)
  (body : list stmt) : Result TemplateSignature :=
  ys <- check_body Γ body ;;
  Ok [ {| typeParameters := [];
          namedArgs := args;
          positionalArgs := [];
          restArgs := None;
          completionKind :=
            AcceptsBlocks (BlocksFromYields (yields_for_certain body) ys) |} ].

(** ** The [component] helper (primitives.d.ts, lines 29 to 58) *)

(** What a conditional type infers from a generic signature has the
    signature's type parameters replaced by their bounds. *)
Definition erased (sig : Signature) : gmap string ty :=
  degrade (typeParameters sig) ∅.

(** [type ArgsFor<T> =
       ResolveSignature<T> extends (args: infer Args) => unknown
         ? Args : {};]
    A signature that requires positional arguments is not assignable to
    a function of the single parameter [args]; the conditional type then
    takes its second branch. *)
Definition ArgsFor (T : Entity) : gmap string ArgSpec :=
  match ResolveSignature T with
  | Some sig =>
      match positionalArgs sig with
      | [] => (λ a, {| arg_optional := arg_optional a;
                       arg_type := ty_subst (erased sig) (arg_type a) |})
              <$> namedArgs sig
      | _ :: _ => ∅
      end
  | None => ∅
  end.

(** [type PositionalFor<T> = ResolveSignature<T> extends (
       args: never, ...positional: infer Positional
     ) => unknown ? Positional : never[];] *)
Definition PositionalFor (T : Entity) : list ty * option ty :=
  match ResolveSignature T with
  | Some sig =>
      spread_rest (erased sig) (ty_subst (erased sig))
                  (ty_subst (erased sig) <$> positionalArgs sig)
                  (restArgs sig)
  | None => ([], Some (TArray TNever))
  end.

(** [type BlocksFor<T> = ResolveSignature<T> extends (
       ...params: never
     ) => (blocks: infer Blocks) => unknown
       ? Blocks extends Partial<AnyBlocks> ? Blocks : {}
       : {};] *)
Definition BlocksFor (T : Entity) : BlockSet :=
  match ResolveSignature T with
  | Some sig =>
      match completionKind sig with
      | AcceptsBlocks blocks => entry_subst (erased sig) <$> blocks
      | _ => ∅
      end
  | None => ∅
  end.

(** The host's [Omit<T, K>], [Pick<T, K>] and [Partial<T>] on the shape
    of the named arguments, and the intersection [&] of two shapes. *)
Definition Omit (T : gmap string ArgSpec) (K : gset string)
  : gmap string ArgSpec :=
  filter (λ kv, kv.1 ∉ K) T.

Definition Pick (T : gmap string ArgSpec) (K : gset string)
  : gmap string ArgSpec :=
  filter (λ kv, kv.1 ∈ K) T.

Definition Partial (T : gmap string ArgSpec) : gmap string ArgSpec :=
  (λ a, {| arg_optional := true; arg_type := arg_type a |}) <$> T.

Definition intersect (T U : gmap string ArgSpec) : gmap string ArgSpec :=
  T ∪ U.

(** [export type ComponentHelper = Invokable<
       <Component, GivenArgs extends keyof ArgsFor<Component>>(
         args: { [Arg in GivenArgs]: ArgsFor<Component>[Arg] },
         component: Component
       ) => ReturnsValue<
         Invokable<
           (
             args: Omit<ArgsFor<Component>, GivenArgs>
                   & Partial<Pick<ArgsFor<Component>, GivenArgs>>,
             ...positional: PositionalFor<Component>
           ) => AcceptsBlocks<BlocksFor<Component>>
         >
       >
     >;]
    [GivenArgs] is inferred as the keys of the named arguments that are
    passed, and falls back to its constraint, the keys of
    [ArgsFor<Component>], when they are not among these.  The arguments
    are then checked against the mapped type over [GivenArgs]: a key
    outside it is rejected, unless the mapped type is [{}], which
    accepts an object literal with any keys.  The signature depends on
    the signature of its argument, so it is a function of the component
    and not one [Signature]. *)
Definition ComponentHelper (args : gmap string ty) (component : Entity)
  : Result (Completion TemplateSignature) :=
  let GivenArgs :=
    if bool_decide (dom args ⊆ dom (ArgsFor component)) then dom args
    else dom (ArgsFor component) in
  _ <- require (bool_decide (GivenArgs = ∅ ∨ dom args ⊆ GivenArgs))
             UnknownArgument ;;
  _ <- require (bool_decide (map_Forall
                (λ k a, from_option
                          (λ spec, assignable a (arg_type spec)) true
                          (ArgsFor component !! k) = true)
                args))
             ArgumentTypeMismatch ;;
  Ok (ReturnsValue (Invokable
        [ {| typeParameters := [];
             namedArgs :=
               intersect (Omit (ArgsFor component) GivenArgs)
                         (Partial (Pick (ArgsFor component) GivenArgs));
             positionalArgs := (PositionalFor component).1;
             restArgs := (PositionalFor component).2;
             completionKind := AcceptsBlocks (BlocksFor component) |} ])).

End HostChecker.

(* --------------------------------------------------------------------- *)
(* 6. Properties                                                         *)
(* --------------------------------------------------------------------- *)

(** The blocks and names that [invokeBlock] accepts for a blocks hash,
    written as a proposition. *)
Definition conforms (strict : bool) (declared : BlockSet)
  (blocks : list (string * BlockImpl)) (names : list string) : Prop :=
  (∀ n, n ∈ names → n ∈ dom declared)
  ∧ (∀ k e, declared !! k = Some e → block_optional e = false → k ∈ blocks.*1)
  ∧ (∀ n impl e, (n, impl) ∈ blocks → declared !! n = Some e →
       impl_accepts strict impl e = true)
  ∧ (dom declared ≠ ∅ →
     map_Forall (λ _ e, block_optional e = true) declared →
     blocks ≠ [] →
     ∃ n, n ∈ blocks.*1 ∧ n ∈ dom declared).

(** A callback without parameters and with an empty body. *)
Definition stub : BlockImpl := {| impl_params := []; impl_yields := [] |}.

Definition stubs (declared : BlockSet) : list (string * BlockImpl) :=
  (λ k, (k, stub)) <$> elements (dom declared).

(** What the host asks of a parameter of a callback that is itself a
    function, [(pps, ...prest) => pret], where the member passes a
    function [(qps, ...qrest) => qret]: the function that is passed
    does not need more parameters than the parameter's type gives it,
    every parameter of the parameter's type is assignable to the one of
    the function that is passed in the same position, and the results
    are assignable in one direction or the other, unless the parameter's
    type returns nothing. *)
Definition callback_fits (strict : bool)
  (pps : list ty) (prest : option ty) (pret : ty)
  (qps : list ty) (qrest : option ty) (qret : ty) : Prop :=
  (prest = None → (length qps ≤ length pps)%nat)
  ∧ (∀ i a b, param_at pps prest i = Some a → param_at qps qrest i = Some b →
       assignable strict a b = true)
  ∧ (pret = TVoid
     ∨ assignable strict qret pret = true
     ∨ assignable strict pret qret = true).

(** What the host asks of a parameter of type [p] of a callback where
    the member passes a value of type [q]: that one of the two types is
    assignable to the other, or, when both are function types,
    [callback_fits]. *)
Definition parameter_fits (strict : bool) (p q : ty) : Prop :=
  match p, q with
  | TFun _ pps prest pret, TFun _ qps qrest qret =>
      callback_fits strict pps prest pret qps qrest qret
  | _, _ => assignable strict p q = true ∨ assignable strict q p = true
  end.

(** What [impl_accepts] asks of the [i]-th parameter, of type [p], of a
    callback written for the member [e]: [e] passes an argument in that
    position, and [p] fits the type of that argument. *)
Definition param_fits (strict : bool) (e : BlockEntry) (i : nat) (p : ty)
  : Prop :=
  match block_params e !! i with
  | Some q => parameter_fits strict p q
  | None =>
      match rest_elem (block_rest e) with
      | Some r => parameter_fits strict p r
      | None => False
      end
  end.



(** A type without type variables. *)
Fixpoint ground (t : ty) : bool :=
  match t with
  | TVar _ => false
  | TArray e => ground e
  | TTuple es => forallb ground es
  | TUnion l r => ground l && ground r
  | TFun tps ps rest ret =>
      forallb (λ tp, ground tp.2) tps
      && forallb ground ps
      && match rest with Some r => ground r | None => true end
      && ground ret
  | _ => true
  end.

(** The blocks hash of the design document's validation scenario,
    [{ default(n: number): BlockResult, inverse?(): BlockResult }]. *)
Definition default_and_inverse : BlockSet :=
  <[ "default" := mandatory [TNumber] None ]>
    {[ "inverse" := optional [] None ]}.

Definition impl (params : list ty) : BlockImpl :=
  {| impl_params := params; impl_yields := [] |}.


(** A callback whose parameters carry no type annotation. *)
Definition callback (params : list string) (body : list stmt)
  : Callback stmt :=
  {| cb_params := (λ x, (x, None)) <$> params; cb_body := body |}.

(** The call of the test of [let]:
      invokeBlock(lett({}, 'hello', 123), {
        *default(str, num) { yield toBlock('body', num, str); },
      }) *)
Definition let_test : stmt :=
  SInvokeBlock (HasSignature LetHelper) ∅
    [EOfType TString; EOfType TNumber]
    [("default", callback ["str"; "num"]
                   [SYield "body" [EVar "num"; EVar "str"]])]
    [].

(** The identity function [<T>(v: T) => T] of the README's note on
    [fn]. *)
Definition generic_identity : ty :=
  TFun [("T", TUnknown)] [TVar "T"] None (TVar "T").

(** The signature of the iteration built-in as the design document
    quotes it, without the [key] argument and the [inverse] block that
    [EachHelper] declares as optional:
    [<T>(args: {}, items: T[]) => AcceptsBlocks<{
       default(item: T, index: number): BlockResult }>] *)
Definition each_as_described : TemplateSignature :=
  [ {| typeParameters := [("T", TUnknown)];
       namedArgs := no_args;
       positionalArgs := [TArray (TVar "T")];
       restArgs := None;
       completionKind :=
         AcceptsBlocks
           {[ "default" := mandatory [TVar "T"; TNumber] None ]} |} ].

(** A body that iterates over strings and yields each item to the block
    [out] of its caller:
      yield invokeBlock(resolve(each)({}, items), {
        *default(item, index) { yield toBlock('out', item); }
      }, 'default'); *)
Definition each_scenario (each : TemplateSignature) : list stmt :=
  [ SInvokeBlock (HasSignature each) ∅ [EOfType (TArray TString)]
      [("default", callback ["item"; "index"]
                     [SYield "out" [EVar "item"]])]
      ["default"] ].

(** The yield events that occur in a body: the [yield toBlock(..)] of
    the body itself, with the types that its values have in the scope of
    the body, and the events that occur in the body of a callback of an
    [invokeBlock] statement of the body, in the scope of that callback. *)
Inductive yields_in (strict : bool)
  : gmap string ty → list stmt → BlockYield → Prop :=
| yields_directly Γ body to values Ts :
    SYield to values ∈ body →
    mapR (type_of Γ) values = Ok Ts →
    yields_in strict Γ body (toBlock to Ts)
| yields_through_block Γ body callee named positional blocks names
    sig nargs pargs value name cb y :
    SInvokeBlock callee named positional blocks names ∈ body →
    resolve callee = Ok sig →
    type_named Γ named = Ok nargs →
    mapR (type_of Γ) positional = Ok pargs →
    call strict sig nargs pargs = Ok value →
    (name, cb) ∈ blocks →
    yields_in strict
      (callback_env Γ (expected_blocks value !! name) (cb_params cb))
      (cb_body cb) y →
    yields_in strict Γ body y.

(** What checking a statement returns is what occurs in it. *)
Definition stmt_sound (strict : bool) (s : stmt) : Prop :=
  ∀ Γ ys, check_stmt strict Γ s = Ok ys →
          ∀ y, y ∈ ys ↔ yields_in strict Γ [s] y.

(** The component of the README's walk through an invocation, whose
    resolved signature is
    [(args: { target: string })
       => AcceptsBlocks<{ default?(arg: string): BlockResult }>]. *)
Definition MyComponent : Entity :=
  HasSignature
    [ {| typeParameters := [];
         namedArgs :=
           {[ "target" := {| arg_optional := false; arg_type := TString |} ]};
         positionalArgs := [];
         restArgs := None;
         completionKind :=
           AcceptsBlocks {[ "default" := optional [TString] None ]} |} ].


(** The blocks of [each] and of [with] once [T] is fixed. *)
Definition each_blocks (T : ty) : BlockSet :=
  <[ "default" := mandatory [T; TNumber] None ]>
    {[ "inverse" := optional [] None ]}.

Definition with_blocks (T : ty) : BlockSet :=
  <[ "default" := mandatory [T] None ]>
    {[ "inverse" := optional [] None ]}.

(** Two completions of the same kind. *)
Definition same_kind {V W : Type} (c : Completion V) (d : Completion W)
  : Prop :=
  match c, d with
  | ReturnsValue _, ReturnsValue _
  | AcceptsBlocks _, AcceptsBlocks _
  | CreatesModifier, CreatesModifier => True
  | _, _ => False
  end.

(** The signature that the [component] helper returns for [component]
    with the named arguments [args] bound in advance. *)
Definition prebound_signature (args : gmap string ty) (component : Entity)
  : Signature :=
  {| typeParameters := [];
     namedArgs :=
       intersect (Omit (ArgsFor component) (dom args))
                 (Partial (Pick (ArgsFor component) (dom args)));
     positionalArgs := (PositionalFor component).1;
     restArgs := (PositionalFor component).2;
     completionKind := AcceptsBlocks (BlocksFor component) |}.

Section Properties.

Variable strict : bool.

(** *** The fuel of [assignable] is enough *)

Lemma ty_size_pos t : (0 < ty_size t)%nat.
Proof. destruct t; cbn; lia. Qed.

Lemma ty_size_elem (es : list ty) e :
  e ∈ es → (ty_size e ≤ foldr (λ e n, ty_size e + n) 0 es)%nat.
Proof.
  induction es as [|e' es IH]; [by intros ?%elem_of_nil|].
  intros [->|Hin]%elem_of_cons; cbn; [lia|]. specialize (IH Hin). lia.
Qed.

Lemma rest_elem_size rest e :
  rest_elem rest = Some e →
  (ty_size e ≤ match rest with Some r => ty_size r | None => 0 end)%nat.
Proof.
  destruct rest as [r|]; [|done]. pose proof (ty_size_pos r).
  destruct r; cbn; intros [= <-]; cbn in *; lia.
Qed.

Lemma forallb_ext_elem {A : Type} (f g : A → bool) l :
  (∀ a, a ∈ l → f a = g a) → forallb f l = forallb g l.
Proof.
  induction l as [|a l IH]; intros H; [done|]. cbn.
  rewrite (H a) by left. rewrite IH; [done|]. intros b Hb. apply H. by right.
Qed.

Lemma forallb2_ext_elem {A B : Type} (f g : A → B → bool) l k :
  (∀ a b, a ∈ l → b ∈ k → f a b = g a b) → forallb2 f l k = forallb2 g l k.
Proof.
  revert k. induction l as [|a l IH]; intros [|b k] H; try done. cbn.
  rewrite (H a b) by left. rewrite IH; [done|].
  intros a' b' Ha Hb. apply H; by right.
Qed.

Lemma prefix_forallb_ext_elem {A B : Type} (f g : A → B → bool) l k :
  (∀ a b, a ∈ l → b ∈ k → f a b = g a b) →
  prefix_forallb f l k = prefix_forallb g l k.
Proof.
  revert k. induction l as [|a l IH]; intros [|b k] H; try done. cbn.
  rewrite (H a b) by left. rewrite IH; [done|].
  intros a' b' Ha Hb. apply H; by right.
Qed.

Lemma param_at_size tps ps rs r i p :
  param_at ps rs i = Some p →
  (ty_size p < ty_size (TFun tps ps rs r))%nat.
Proof.
  unfold param_at. destruct (ps !! i) as [p'|] eqn:Hi.
  - intros [= ->]. apply list_elem_of_lookup_2, ty_size_elem in Hi.
    cbn. lia.
  - intros Hr%rest_elem_size. cbn. lia.
Qed.

Lemma param_at_beyond ps rs i :
  (length ps ≤ i)%nat → param_at ps rs i = rest_elem rs.
Proof. intros Hi. unfold param_at. by rewrite lookup_ge_None_2. Qed.

Lemma signature_related_ext param1 ret1 param2 ret2 ps rs r qs rt r' :
  (∀ i p q, param_at ps rs i = Some p → param_at qs rt i = Some q →
            param1 p q = param2 p q) →
  ret1 r r' = ret2 r r' →
  signature_related param1 ret1 ps rs r qs rt r'
  = signature_related param2 ret2 ps rs r qs rt r'.
Proof.
  intros Hparam Hret. unfold signature_related. rewrite Hret. do 2 f_equal.
  apply forallb_ext_elem. intros i _.
  destruct (param_at ps rs i) as [p|] eqn:Hp; [|done].
  destruct (param_at qs rt i) as [q|] eqn:Hq; [|done]. eauto.
Qed.

Lemma param_related_ext v sub1 sub2 p q :
  (∀ a b, (ty_size a + ty_size b ≤ ty_size p + ty_size q)%nat →
          sub1 a b = sub2 a b) →
  param_related v sub1 p q = param_related v sub2 p q.
Proof.
  intros H.
  destruct p as [| | | | | | |x|a|es|a1 a2|tps ps rs r];
    try (cbn [param_related]; by rewrite !H by lia).
  destruct q as [| | | | | | |y|b|fs|c d|tqs qs rt r'];
    try (cbn [param_related]; by rewrite !H by lia).
  cbn [param_related]. apply signature_related_ext.
  - intros i a b Ha%(param_at_size tqs qs rt r') Hb%(param_at_size tps ps rs r).
    apply H. lia.
  - rewrite !H by (cbn; lia). done.
Qed.

(** A step looks at its [sub] only on smaller types. *)
Lemma assignable_step_ext sub1 sub2 s t :
  (∀ a b, (ty_size a + ty_size b < ty_size s + ty_size t)%nat →
          sub1 a b = sub2 a b) →
  assignable_step strict sub1 s t = assignable_step strict sub2 s t.
Proof.
  intros H.
  destruct t as [| | | | | | |y|b|fs|c d|tqs qs rt r'];
    try reflexivity;
    destruct s as [| | | | | | |x|a|es|a1 a2|tps ps rs r];
    try reflexivity; cbn in H; cbn [assignable_step].
  all: try (by rewrite !H by (cbn; lia)).
  - apply forallb_ext_elem. intros e He%ty_size_elem. apply H; lia.
  - apply forallb2_ext_elem.
    intros e f He%ty_size_elem Hf%ty_size_elem. apply H; lia.
  - apply signature_related_ext.
    + intros i p q Hp%(param_at_size tps ps rs r)
        Hq%(param_at_size tqs qs rt r').
      apply param_related_ext. intros a b Hab. apply H. cbn in *. lia.
    + by rewrite H by lia.
Qed.

Lemma assignable_fuel_irrel n : ∀ m s t,
  (ty_size s + ty_size t ≤ n)%nat → (ty_size s + ty_size t ≤ m)%nat →
  assignable_fuel strict n s t = assignable_fuel strict m s t.
Proof.
  induction n as [|n IH]; intros m s t Hn Hm.
  { pose proof (ty_size_pos s). lia. }
  destruct m as [|m]; [pose proof (ty_size_pos s); lia|].
  cbn [assignable_fuel]. apply assignable_step_ext.
  intros a b Hlt. apply IH; lia.
Qed.

Lemma assignable_fuel_enough n s t :
  (ty_size s + ty_size t ≤ n)%nat →
  assignable_fuel strict n s t = assignable strict s t.
Proof. intros Hn. by apply assignable_fuel_irrel. Qed.

(** [assignable] satisfies the equation of one step. *)
Lemma assignable_unfold s t :
  assignable strict s t = assignable_step strict (assignable strict) s t.
Proof.
  unfold assignable at 1.
  destruct (ty_size s + ty_size t)%nat as [|n] eqn:Hn.
  { pose proof (ty_size_pos s). lia. }
  cbn [assignable_fuel]. apply assignable_step_ext.
  intros a b Hlt. apply assignable_fuel_enough. lia.
Qed.

Lemma assignable_top s :
  assignable strict s TUnknown = true ∧ assignable strict s TAny = true.
Proof. by rewrite !assignable_unfold. Qed.

Lemma assignable_union_elim a b t :
  assignable strict (TUnion a b) t = true →
  assignable strict a t = true ∧ assignable strict b t = true.
Proof.
  rewrite assignable_unfold.
  destruct t; cbn [assignable_step];
    try (intros [? ?]%andb_true_iff; by split).
  all: intros _; split; apply assignable_top.
Qed.

Lemma assignable_union_intro s t u :
  assignable strict s t = true ∨ assignable strict s u = true →
  assignable strict s (TUnion t u) = true.
Proof.
  induction s as [| | | | | | |x|e _|es _|a b IHa IHb|tps ps rest ret _ _ _ _]
    using ty_ind; intros H; rewrite assignable_unfold; cbn [assignable_step];
    try done; try (by apply orb_true_iff).
  apply andb_true_iff. split; [apply IHa|apply IHb].
  - destruct H as [H|H]; apply assignable_union_elim in H as [H _]; auto.
  - destruct H as [H|H]; apply assignable_union_elim in H as [_ H]; auto.
Qed.

Lemma prefix_forallb_diag {A : Type} (f : A → A → bool) l :
  Forall (λ a, f a a = true) l → prefix_forallb f l l = true.
Proof. induction 1 as [|a l Ha _ IH]; [done|]. cbn. by rewrite Ha, IH. Qed.

Lemma forallb2_diag {A : Type} (f : A → A → bool) l :
  Forall (λ a, f a a = true) l → forallb2 f l l = true.
Proof. induction 1 as [|a l Ha _ IH]; [done|]. cbn. by rewrite Ha, IH. Qed.

Lemma forallb_elem_of {A : Type} (f : A → bool) (l : list A) :
  forallb f l = true ↔ ∀ x, x ∈ l → f x = true.
Proof.
  rewrite forallb_forall. split; intros H x Hx; apply H.
  - by apply list_elem_of_In.
  - by apply list_elem_of_In.
Qed.

Lemma signature_related_refl param ret ps rs r :
  (∀ i p, param_at ps rs i = Some p → param p p = true) →
  ret r r = true →
  signature_related param ret ps rs r ps rs r = true.
Proof.
  intros Hparam Hret. unfold signature_related.
  rewrite Nat.leb_refl, orb_true_r, Hret, andb_true_r. cbn [andb].
  apply forallb_elem_of. intros i _.
  destruct (param_at ps rs i) as [p|] eqn:Hp; [|done]. eauto.
Qed.

Lemma param_related_refl v (sub : ty → ty → bool) p :
  (∀ a, (ty_size a ≤ ty_size p)%nat → sub a a = true) →
  param_related v sub p p = true.
Proof.
  intros H.
  destruct p as [| | | | | | |x|a|es|a1 a2|tps ps rs r];
    try (cbn [param_related]; by rewrite H by lia).
  cbn [param_related]. apply signature_related_refl.
  - intros i a Ha%(param_at_size tps ps rs r). apply H. lia.
  - rewrite (H r) by (cbn; lia). by destruct (is_void r).
Qed.

Lemma assignable_refl_size n :
  ∀ t, (ty_size t ≤ n)%nat → assignable strict t t = true.
Proof.
  induction n as [|n IH]; intros t Hn.
  { pose proof (ty_size_pos t). lia. }
  rewrite assignable_unfold.
  destruct t as [| | | | | | |x|e|es|l r|tps ps rest ret];
    cbn [assignable_step]; try done.
  - by apply bool_decide_eq_true.
  - apply IH. cbn in Hn. lia.
  - apply forallb2_diag, Forall_forall.
    intros e He%ty_size_elem. apply IH. cbn in Hn. lia.
  - apply andb_true_iff.
    split; apply assignable_union_intro; [left|right]; apply IH;
      cbn in Hn; lia.
  - apply signature_related_refl.
    + intros i p Hp%(param_at_size tps ps rest ret).
      apply param_related_refl. intros a Ha. apply IH. lia.
    + rewrite IH by (cbn in Hn; lia). apply orb_true_r.
Qed.

(** Every type is assignable to itself. *)
Lemma assignable_refl t : assignable strict t t = true.
Proof. by apply (assignable_refl_size (ty_size t)). Qed.

Lemma delete_all_empty (tps : list (string * ty)) :
  foldr (λ tp m, delete tp.1 m) (∅ : gmap string ty) tps = ∅.
Proof.
  induction tps as [|tp tps IH]; [done|]. cbn. rewrite IH. apply delete_empty.
Qed.

Lemma ty_subst_empty (t : ty) : ty_subst ∅ t = t.
Proof.
  induction t as [| | | | | | |x|e IH|es IH|l r IHl IHr|tps ps rest ret IHt IHp IHr IH]
    using ty_ind; cbn; try done.
  - by rewrite IH.
  - f_equal. induction IH as [|e es He _ IH]; [done|]. cbn. by rewrite He, IH.
  - by rewrite IHl, IHr.
  - rewrite delete_all_empty, IH.
    assert ((ty_subst ∅ <$> ps) = ps) as ->.
    { induction IHp as [|e es He _ IHes]; [done|]. cbn. by rewrite He, IHes. }
    assert (((λ tp : string * ty, (tp.1, ty_subst ∅ tp.2)) <$> tps) = tps) as ->.
    { induction IHt as [|[x b] l Hb _ IHl]; [done|]. cbn in *.
      by rewrite Hb, IHl. }
    destruct rest as [r|]; [|done].
    destruct r; cbn in *; try done; by rewrite ?IHr.
Qed.

Lemma in_common_spec declared (blocks : list (string * BlockImpl)) :
  in_common declared blocks = true
  ↔ (blocks ≠ [] → ∃ n, n ∈ blocks.*1 ∧ n ∈ dom declared).
Proof.
  unfold in_common. destruct blocks as [|b blocks]; [done|].
  rewrite existsb_exists. split.
  - intros (c & Hc%list_elem_of_In & Hin%bool_decide_eq_true) _.
    exists c.1. split; [|done]. apply list_elem_of_fmap. eauto.
  - intros H. destruct H as (n & (c & -> & Hc)%list_elem_of_fmap & Hn); [done|].
    exists c. split; [by apply list_elem_of_In|by apply bool_decide_eq_true].
Qed.

Lemma weak_spec declared blocks :
  negb (weak declared) || in_common declared blocks = true
  ↔ (dom declared ≠ ∅ →
     map_Forall (λ _ e, block_optional e = true) declared →
     blocks ≠ [] →
     ∃ n, n ∈ blocks.*1 ∧ n ∈ dom declared).
Proof.
  unfold weak. case_bool_decide as Hw; cbn [negb orb].
  - rewrite in_common_spec. destruct Hw. split; auto.
  - split; [|done]. intros _ ? ?. destruct Hw. done.
Qed.

Lemma invokeBlock_conforms declared blocks names :
  conforms strict declared blocks names →
  invokeBlock strict (AcceptsBlocks declared) blocks names
  = Ok (mjoin (YieldsFromBlock <$> blocks.*2)).
Proof.
  intros (Hnames & Hmand & Himpl & Hweak). unfold invokeBlock.
  assert (forallb (λ n, bool_decide (n ∈ dom declared)) names = true) as ->.
  { apply forallb_elem_of. intros n Hn. apply bool_decide_eq_true. auto. }
  cbn [require bindR].
  rewrite bool_decide_eq_true_2.
  2:{ intros k e Hk. destruct (block_optional e) eqn:Ho; [by left|right; eauto]. }
  cbn [require bindR].
  rewrite (proj2 (weak_spec declared blocks) Hweak). cbn [require bindR].
  assert (forallb (λ b, match declared !! b.1 with
                        | Some e => impl_accepts strict b.2 e
                        | None => true
                        end) blocks = true) as ->.
  { apply forallb_elem_of. intros [n impl] Hb. cbn.
    destruct (declared !! n) eqn:Hd; [|done]. eauto. }
  reflexivity.
Qed.

Lemma invokeBlock_inv declared blocks names ys :
  invokeBlock strict (AcceptsBlocks declared) blocks names = Ok ys →
  conforms strict declared blocks names
  ∧ ys = mjoin (YieldsFromBlock <$> blocks.*2).
Proof.
  unfold invokeBlock.
  destruct (forallb _ names) eqn:Hn; cbn [require bindR]; [|done].
  case_bool_decide as Hm; cbn [require bindR]; [|done].
  destruct (negb (weak declared) || in_common declared blocks) eqn:Hw;
    cbn [require bindR]; [|done].
  destruct (forallb _ blocks) eqn:Hi; cbn [require bindR]; [|done].
  intros [= <-]. split; [|done]. split; [|split; [|split]].
  - intros n Hin. rewrite forallb_elem_of in Hn.
    specialize (Hn n Hin). by apply bool_decide_eq_true in Hn.
  - intros k e Hk Ho. destruct (Hm k e Hk) as [Ht|]; [congruence|done].
  - intros n impl e Hb Hd. rewrite forallb_elem_of in Hi.
    specialize (Hi _ Hb). cbn in Hi. by rewrite Hd in Hi.
  - by apply weak_spec.
Qed.

Lemma stubs_conform declared :
  conforms strict declared (stubs declared) (elements (dom declared)).
Proof.
  split; [|split; [|split]].
  - intros n Hn. by apply elem_of_elements in Hn.
  - intros k e Hk _. unfold stubs. rewrite <- list_fmap_compose.
    apply list_elem_of_fmap. exists k. split; [done|].
    apply elem_of_elements, elem_of_dom. eauto.
  - intros n impl e Hin _. unfold stubs in Hin.
    apply list_elem_of_fmap in Hin as (k & Heq & _).
    injection Heq as -> ->.
    unfold impl_accepts. cbn.
    destruct (rest_elem (block_rest e)); [by rewrite drop_nil|done].
  - intros _ _ Hsome. unfold stubs in *. rewrite <- list_fmap_compose.
    destruct (elements (dom declared)) as [|k l] eqn:Hl; [done|].
    exists k. split; [by left|].
    apply elem_of_elements. rewrite Hl. by left.
Qed.

Lemma stubs_yield_nothing declared :
  mjoin (YieldsFromBlock <$> (stubs declared).*2) = [].
Proof.
  unfold stubs. induction (elements (dom declared)) as [|k l IH]; [done|].
  cbn. exact IH.
Qed.

(** C1: a value of each of the three completion kinds is accepted by the
    entry point of its own kind and rejected by the other two with the
    mismatch of the entry point that is called: [invokeInline] returns
    the [T] of [ReturnsValue<T>], [invokeModifier] returns nothing for
    [CreatesModifier], and [invokeBlock] succeeds on [AcceptsBlocks] for
    every blocks hash and names that conform to it, as a stub for every
    declared block does. *)
Theorem dispatch_by_completion_kind (value : Completion ty) :
  match value with
  | ReturnsValue T =>
      invokeInline value = Ok T
      ∧ invokeModifier value = Err NotAModifier
      ∧ ∀ blocks names,
          invokeBlock strict value blocks names = Err NotBlockAccepting
  | CreatesModifier =>
      invokeModifier value = Ok tt
      ∧ invokeInline value = Err NotInvokableInline
      ∧ ∀ blocks names,
          invokeBlock strict value blocks names = Err NotBlockAccepting
  | AcceptsBlocks declared =>
      (∀ blocks names,
         conforms strict declared blocks names →
         invokeBlock strict value blocks names
         = Ok (mjoin (YieldsFromBlock <$> blocks.*2)))
      ∧ invokeBlock strict value (stubs declared) (elements (dom declared))
        = Ok []
      ∧ invokeInline value = Err NotInvokableInline
      ∧ invokeModifier value = Err NotAModifier
  end.
Proof.
  destruct value as [T|declared|]; repeat split; try reflexivity.
  - apply invokeBlock_conforms.
  - rewrite (invokeBlock_conforms _ _ _ (stubs_conform declared)).
    by rewrite stubs_yield_nothing.
Qed.

(** C9: [Invokable<T>] is [T]: wrapping a signature changes neither the
    signature nor what resolving or calling it gives. *)
Theorem Invokable_is_identity (T : TemplateSignature) :
  Invokable T = T
  ∧ resolve (HasSignature (Invokable T)) = resolve (HasSignature T)
  ∧ ∀ named positional,
      call strict (Invokable T) named positional
      = call strict T named positional.
Proof. by repeat split. Qed.

Lemma bind_ok sig named positional σ :
  map_Forall (λ k spec, arg_optional spec = true ∨ is_Some (named !! k))
             (namedArgs sig) →
  dom named ⊆ dom (namedArgs sig) →
  match restArgs sig with
  | Some _ => (length (positionalArgs sig) <=? length positional)%nat
  | None => (length (positionalArgs sig) =? length positional)%nat
  end = true →
  bind_positional strict true (positionalArgs sig) positional
    (bind_rest strict (restArgs sig)
       (drop (length (positionalArgs sig)) positional)
       (bind_positional strict false (positionalArgs sig) positional
          (bind_named strict (namedArgs sig) named ∅))) = Ok σ →
  bind strict sig named positional
  = Ok (completion_subst (degrade (typeParameters sig) σ)
                         (completionKind sig)).
Proof.
  intros Hmand Hknown Harity Hσ. unfold bind.
  rewrite Harity. cbn [require bindR].
  rewrite bool_decide_eq_true_2 by (by right). cbn [require bindR].
  rewrite bool_decide_eq_true_2 by done. cbn [require bindR].
  by rewrite Hσ.
Qed.

(** C8: [resolveOrReturn] has a signature for every entity.  For an
    entity that carries one it is the signature that [resolve] gives;
    for a plain value of type [T], which [resolve] rejects, it is a
    single signature without type parameters, named or positional
    arguments that returns [T], so that calling it without arguments and
    invoking the result inline gives [T]. *)
Theorem resolveOrReturn_total (entity : Entity) :
  match resolve entity with
  | Ok sig => resolveOrReturn entity = sig
  | Err _ =>
      ∃ T sig,
        entity = PlainValue T
        ∧ resolveOrReturn entity = [sig]
        ∧ typeParameters sig = []
        ∧ namedArgs sig = ∅
        ∧ positionalArgs sig = []
        ∧ restArgs sig = None
        ∧ completionKind sig = ReturnsValue T
        ∧ (value <- call strict (resolveOrReturn entity) ∅ [] ;;
           invokeInline value) = Ok T
  end.
Proof.
  destruct entity as [sig|T]; cbn [resolve resolveOrReturn]; [done|].
  eexists T, _. repeat split.
  cbn [call]. rewrite (bind_ok _ _ _ ∅).
  - cbn. by rewrite ty_subst_empty.
  - apply map_Forall_empty.
  - done.
  - done.
  - unfold bind_positional, bind_rest, bind_named. cbn.
    by rewrite map_to_list_empty.
Qed.

Lemma signature_related_spec param ret ps rs r qs rt r' :
  signature_related param ret ps rs r qs rt r' = true
  ↔ (rt = None → (length ps ≤ length qs)%nat)
    ∧ (∀ i p q, param_at ps rs i = Some p → param_at qs rt i = Some q →
         param p q = true)
    ∧ ret r r' = true.
Proof.
  unfold signature_related. rewrite !andb_true_iff, forallb_elem_of.
  assert ((match rt with Some _ => true | None => false end
           || (length ps <=? length qs)%nat) = true
          ↔ (rt = None → (length ps ≤ length qs)%nat)) as ->.
  { destruct rt; cbn.
    - split; [by intros _ [=]|done].
    - rewrite Nat.leb_le. split; auto. }
  assert ((∀ i, i ∈ seq 0 (S (length ps `max` length qs)) →
             match param_at ps rs i, param_at qs rt i with
             | Some p, Some q => param p q
             | _, _ => true
             end = true)
          ↔ (∀ i p q, param_at ps rs i = Some p → param_at qs rt i = Some q →
               param p q = true)) as ->; [|tauto].
  split.
  - intros H i p q Hp Hq.
    destruct (decide (i ≤ length ps `max` length qs)%nat) as [Hi|Hi].
    + specialize (H i). rewrite Hp, Hq in H. apply H.
      apply elem_of_seq. lia.
    + specialize (H (length ps `max` length qs)).
      rewrite param_at_beyond in Hp, Hq by lia.
      rewrite !param_at_beyond, Hp, Hq in H by lia. apply H.
      apply elem_of_seq. lia.
  - intros H i _.
    destruct (param_at ps rs i) as [p|] eqn:Hp; [|done].
    destruct (param_at qs rt i) as [q|] eqn:Hq; [|done]. eauto.
Qed.

Lemma related_true p q :
  related strict p q = true ↔ parameter_fits strict p q.
Proof.
  unfold related, parameter_fits.
  destruct p as [| | | | | | |x|a|es|a1 a2|tps ps rs r];
    try (cbn [param_related negb andb]; rewrite orb_true_iff; tauto).
  destruct q as [| | | | | | |y|b|fs|c d|tqs qs rt r'];
    try (cbn [param_related negb andb]; rewrite orb_true_iff; tauto).
  cbn [param_related]. rewrite signature_related_spec. unfold callback_fits.
  cbn [negb andb]. rewrite !orb_true_iff.
  assert (is_void r = true ↔ r = TVoid) as -> by (by destruct r).
  split; intros (H1 & H2 & H3); (split; [done|split; [eauto|tauto]]).
Qed.

Lemma prefix_forallb_lookup {A B : Type} (f : A → B → bool) l k :
  prefix_forallb f l k = true
  ↔ ∀ i a b, l !! i = Some a → k !! i = Some b → f a b = true.
Proof.
  revert k. induction l as [|a l IH]; intros [|b k]; cbn.
  1-3: split; [intros _ i ? ? Hl Hk; by destruct i|done].
  rewrite andb_true_iff, IH. split.
  - intros [Hab H] [|i] a' b' Hl Hk; cbn in *; [congruence|eauto].
  - intros H. split; [by apply (H 0)|].
    intros i a' b' Hl Hk. by apply (H (S i)).
Qed.

Lemma impl_accepts_spec (i : BlockImpl) (e : BlockEntry) :
  impl_accepts strict i e = true
  ↔ ∀ n p, impl_params i !! n = Some p → param_fits strict e n p.
Proof.
  unfold impl_accepts, param_fits.
  destruct (rest_elem (block_rest e)) as [r|].
  - rewrite andb_true_iff, prefix_forallb_lookup, forallb_elem_of. split.
    + intros [Hpre Hrest] n p Hn.
      destruct (block_params e !! n) as [q|] eqn:Hq.
      * apply related_true; eauto.
      * apply related_true, Hrest, list_elem_of_lookup.
        apply lookup_ge_None in Hq.
        exists (n - length (block_params e)).
        rewrite lookup_drop, <- Hn. f_equal. lia.
    + intros H. split.
      * intros n p q Hn Hq. specialize (H n p Hn). rewrite Hq in H.
        by apply related_true.
      * intros p Hp. apply list_elem_of_lookup in Hp as [n Hn].
        rewrite lookup_drop in Hn. specialize (H _ p Hn).
        rewrite (proj2 (lookup_ge_None _ _)) in H by lia.
        by apply related_true.
  - rewrite andb_true_iff, prefix_forallb_lookup, Nat.leb_le. split.
    + intros [Hlen Hpre] n p Hn.
      destruct (block_params e !! n) as [q|] eqn:Hq.
      * apply related_true; eauto.
      * apply lookup_ge_None in Hq. apply lookup_lt_Some in Hn. lia.
    + intros H. split.
      * destruct (decide (length (impl_params i) ≤ length (block_params e))%nat)
          as [|Hgt]; [done|].
        destruct (lookup_lt_is_Some_2 (impl_params i) (length (block_params e)))
          as [p Hp]; [lia|].
        specialize (H _ p Hp).
        by rewrite (proj2 (lookup_ge_None _ _)) in H by lia.
      * intros n p q Hn Hq. specialize (H n p Hn). rewrite Hq in H.
        by apply related_true.
Qed.

Lemma invokeBlock_names_ok declared blocks names :
  (∀ n, n ∈ names → n ∈ dom declared) →
  (∀ k e, declared !! k = Some e → block_optional e = false → k ∈ blocks.*1) →
  (dom declared ≠ ∅ →
   map_Forall (λ _ e, block_optional e = true) declared →
   blocks ≠ [] →
   ∃ n, n ∈ blocks.*1 ∧ n ∈ dom declared) →
  invokeBlock strict (AcceptsBlocks declared) blocks names
  = (_ <- require (forallb (λ b, match declared !! b.1 with
                               | Some e => impl_accepts strict b.2 e
                               | None => true
                               end) blocks)
                BlockParameterMismatch ;;
     Ok (mjoin (YieldsFromBlock <$> blocks.*2))).
Proof.
  intros Hnames Hmand Hweak. unfold invokeBlock.
  assert (forallb (λ n, bool_decide (n ∈ dom declared)) names = true) as ->.
  { apply forallb_elem_of. intros n Hn. apply bool_decide_eq_true. auto. }
  cbn [require bindR].
  rewrite bool_decide_eq_true_2.
  2:{ intros k e Hk.
      destruct (block_optional e) eqn:Ho; [by left|right; eauto]. }
  cbn [require bindR].
  by rewrite (proj2 (weak_spec declared blocks) Hweak).
Qed.

(** C3, as the code has it: a call of [invokeBlock] on a value that
    accepts blocks succeeds only when the blocks hash has a callback for
    every block that is not optional and every name in the list of names
    is a block of the value.  A hash that lacks a mandatory block and a
    list that names an undeclared block both fail with
    [BlockNameMismatch].  The list of names does not have to name the
    blocks that are passed: it may be empty.  For the blocks
    [{ default(n: number), inverse?() }]: passing [default] alone
    succeeds, with or without its name in the list; passing nothing
    fails; passing and naming a third block [extra] fails with
    [BlockNameMismatch]. *)
Theorem block_names_checked :
  (∀ declared blocks names ys,
     invokeBlock strict (AcceptsBlocks declared) blocks names = Ok ys →
     (∀ k e, declared !! k = Some e → block_optional e = false →
             k ∈ blocks.*1)
     ∧ (∀ n, n ∈ names → n ∈ dom declared))
  ∧ (∀ declared blocks names k e,
       declared !! k = Some e → block_optional e = false → k ∉ blocks.*1 →
       invokeBlock strict (AcceptsBlocks declared) blocks names
       = Err BlockNameMismatch)
  ∧ (∀ declared blocks names n,
       n ∈ names → n ∉ dom declared →
       invokeBlock strict (AcceptsBlocks declared) blocks names
       = Err BlockNameMismatch)
  ∧ invokeBlock strict (AcceptsBlocks default_and_inverse)
      [("default", impl [TNumber])] ["default"] = Ok []
  ∧ invokeBlock strict (AcceptsBlocks default_and_inverse)
      [("default", impl [TNumber])] [] = Ok []
  ∧ invokeBlock strict (AcceptsBlocks default_and_inverse) [] []
    = Err BlockNameMismatch
  ∧ invokeBlock strict (AcceptsBlocks default_and_inverse)
      [("default", impl [TNumber]); ("extra", impl [])]
      ["default"; "extra"]
    = Err BlockNameMismatch.
Proof.
  split; [|split; [|split]].
  - intros declared blocks names ys H.
    apply invokeBlock_inv in H as ((Hn & Hm & _) & _). auto.
  - intros declared blocks names k e Hk Ho Hnot. unfold invokeBlock.
    destruct (forallb _ names); cbn [require bindR]; [|done].
    rewrite bool_decide_eq_false_2; [done|].
    intros H. destruct (H k e Hk) as [Ht|Hin]; [congruence|done].
  - intros declared blocks names n Hn Hnot. unfold invokeBlock.
    destruct (forallb _ names) eqn:Hf; cbn [require bindR]; [|done].
    rewrite forallb_elem_of in Hf. specialize (Hf n Hn).
    by apply bool_decide_eq_true in Hf.
  - by destruct strict; vm_compute.
Qed.


Lemma lookup_prebound (T : gmap string ArgSpec) (K : gset string) k :
  intersect (Omit T K) (Partial (Pick T K)) !! k
  = (λ spec, if bool_decide (k ∈ K)
             then {| arg_optional := true; arg_type := arg_type spec |}
             else spec) <$> T !! k.
Proof.
  unfold intersect, Omit, Pick, Partial.
  rewrite lookup_union, lookup_fmap, !map_lookup_filter.
  destruct (T !! k) as [spec|]; cbn; [|done].
  case_bool_decide as Hk.
  - rewrite option_guard_False by (cbn; tauto).
    by rewrite option_guard_True.
  - rewrite option_guard_True by done.
    by rewrite option_guard_False.
Qed.

(** C5, as the code has it: the signature that the [component] helper
    returns for a component and named arguments bound in advance takes
    named arguments with the same keys and types as [ArgsFor] of the
    component.  A key that is not bound in advance (the keys that [Omit]
    keeps) is as the component declares it, mandatory or optional; a key
    that is bound in advance stays in the shape and becomes optional.
    The helper accepts any arguments whose keys are keys of the
    component and whose types are assignable to what it declares. *)
Theorem component_prebound_args args component :
  dom args ⊆ dom (ArgsFor component) →
  (∀ k a spec, args !! k = Some a → ArgsFor component !! k = Some spec →
     assignable strict a (arg_type spec) = true) →
  ∃ sig,
    ComponentHelper strict args component = Ok (ReturnsValue [sig])
    ∧ dom (namedArgs sig) = dom (ArgsFor component)
    ∧ ∀ k spec,
        ArgsFor component !! k = Some spec →
        namedArgs sig !! k
        = Some (if bool_decide (k ∈ dom args)
                then {| arg_optional := true; arg_type := arg_type spec |}
                else spec).
Proof.
  intros Hdom Hty. unfold ComponentHelper. cbv zeta.
  rewrite (bool_decide_eq_true_2 (dom args ⊆ dom (ArgsFor component)))
    by done.
  cbv iota. rewrite bool_decide_eq_true_2 by (by right).
  cbn [require bindR].
  rewrite bool_decide_eq_true_2.
  2:{ intros k a Ha.
      assert (is_Some (ArgsFor component !! k)) as [spec Hs].
      { apply elem_of_dom, Hdom, elem_of_dom. eauto. }
      rewrite Hs. cbn. eauto. }
  cbn [require bindR]. eexists. split; [reflexivity|]. cbn [namedArgs]. split.
  - apply set_eq. intros k. rewrite !elem_of_dom, lookup_prebound.
    by rewrite fmap_is_Some.
  - intros k spec Hk. by rewrite lookup_prebound, Hk.
Qed.

Lemma param_types_unannotated (e : BlockEntry) (xs : list string) :
  (length xs ≤ length (block_params e))%nat →
  param_types (Some e) ((λ x, (x, None)) <$> xs)
  = take (length xs) (block_params e).
Proof.
  unfold param_types, contextual_type.
  generalize (block_params e) as ps.
  induction xs as [|x xs IH]; intros ps Hlen; [done|].
  destruct ps as [|p ps]; cbn in Hlen; [lia|].
  rewrite fmap_cons, imap_cons. cbn. f_equal.
  apply (IH ps). lia.
Qed.

Lemma parameter_fits_refl p : parameter_fits strict p p.
Proof.
  destruct p as [| | | | | | |x|a|es|a1 a2|tps ps rs r];
    try (left; apply assignable_refl).
  split; [done|split].
  - intros i a b Ha Hb. rewrite Ha in Hb. injection Hb as <-.
    apply assignable_refl.
  - right. left. apply assignable_refl.
Qed.

(** A callback that leaves its parameters unannotated is accepted by
    the block it is written for when the block passes that many
    arguments. *)
Lemma unannotated_accepted (e : BlockEntry) (xs : list string) ys :
  (length xs ≤ length (block_params e))%nat →
  impl_accepts strict
    {| impl_params := param_types (Some e) ((λ x, (x, None)) <$> xs);
       impl_yields := ys |} e
  = true.
Proof.
  intros Hlen. apply impl_accepts_spec. cbn [impl_params].
  rewrite param_types_unannotated by done.
  intros n p [Hn _]%lookup_take_Some. unfold param_fits. rewrite Hn.
  apply parameter_fits_refl.
Qed.

(** C10: binding [let] to values of types [T1 .. Tn] gives a [default]
    block that passes exactly these types in this order.  A callback
    that names its parameters without annotating them sees the [i]-th
    of these types for its [i]-th parameter and is accepted with up to
    [n] parameters, and a callback that declares more than [n]
    parameters is rejected.  For the call of the
    test, with a string and a number, the parameters of the callback are
    a string and a number, and yielding them in the other order gives
    [BlockYield<'body', [number, string]>]. *)
Theorem let_passes_values_in_order (values : list ty) :
  call strict LetHelper ∅ values
  = Ok (AcceptsBlocks {[ "default" := mandatory values None ]})
  ∧ (∀ xs : list string,
       length xs = length values →
       param_types (Some (mandatory values None)) ((λ x, (x, None)) <$> xs)
       = values)
  ∧ (∀ (xs : list string) yields,
       (length xs ≤ length values)%nat →
       invokeBlock strict
         (AcceptsBlocks {[ "default" := mandatory values None ]})
         [("default",
           {| impl_params :=
                param_types (Some (mandatory values None))
                            ((λ x, (x, None)) <$> xs);
              impl_yields := yields |})]
         ["default"]
       = Ok yields)
  ∧ (∀ params yields,
       (length values < length params)%nat →
       invokeBlock strict
         (AcceptsBlocks {[ "default" := mandatory values None ]})
         [("default", {| impl_params := params; impl_yields := yields |})]
         ["default"]
       = Err BlockParameterMismatch)
  ∧ call strict LetHelper ∅ [TString; TNumber]
    = Ok (AcceptsBlocks {[ "default" := mandatory [TString; TNumber] None ]})
  ∧ callback_env ∅ (Some (mandatory [TString; TNumber] None))
      (cb_params (callback ["str"; "num"] []))
    = <[ "num" := TNumber ]> {[ "str" := TString ]}
  ∧ check_stmt strict ∅ let_test = Ok [toBlock "body" [TNumber; TString]].
Proof.
  assert (∀ n, n ∈ ["default"] →
               n ∈ dom ({[ "default" := mandatory values None ]} : BlockSet))
    as Hnames.
  { intros n ->%list_elem_of_singleton. apply elem_of_dom.
    by rewrite lookup_singleton_eq. }
  split; [|split; [|split; [|split; [|split; [|split]]]]].
  - by vm_compute.
  - intros xs Hlen. rewrite param_types_unannotated by (cbn; lia). cbn.
    by rewrite Hlen, firstn_all.
  - intros xs yields Hlen. rewrite invokeBlock_names_ok; [|done| |].
    + cbn. rewrite lookup_singleton_eq.
      rewrite unannotated_accepted by done. cbn.
      by rewrite app_nil_r.
    + intros k e [-> _]%lookup_singleton_Some _. by left.
    + intros _ Hall. by specialize (Hall "default" _ (lookup_singleton_eq _ _)).
  - intros params yields Hlen. rewrite invokeBlock_names_ok; [|done| |].
    + cbn. rewrite lookup_singleton_eq. unfold impl_accepts. cbn.
      by rewrite (proj2 (Nat.leb_gt _ _)) by done.
    + intros k e [-> _]%lookup_singleton_Some _. by left.
    + intros _ Hall. by specialize (Hall "default" _ (lookup_singleton_eq _ _)).
  - by vm_compute.
  - by vm_compute.
  - by destruct strict; vm_compute.
Qed.

Lemma instantiate_without_context tp tps ps ret :
  instantiate_in_context strict ∅ [] (TFun (tp :: tps) ps None ret)
  = TFun [] (ty_subst (degrade (tp :: tps) ∅) <$> ps) None
         (ty_subst (degrade (tp :: tps) ∅) ret).
Proof.
  unfold instantiate_in_context. rewrite zip_with_nil_r. cbn [foldl].
  rewrite map_filter_empty. reflexivity.
Qed.

Lemma unify_fn_pattern0 tp tps ps ret :
  unify strict false (TFun [] [] (Some (TVar "Args")) (TVar "Ret"))
        (TFun (tp :: tps) ps None ret) ∅
  = Some (<["Ret" := ty_subst (degrade (tp :: tps) ∅) ret]>
            (<["Args" := TTuple (ty_subst (degrade (tp :: tps) ∅) <$> ps)]> ∅)).
Proof.
  unfold unify, unify_with.
  rewrite instantiate_without_context.
  generalize (ty_subst (degrade (tp :: tps) ∅) <$> ps) as ps'.
  generalize (ty_subst (degrade (tp :: tps) ∅) ret) as ret'.
  intros. vm_compute. reflexivity.
Qed.

Lemma bind_fn0 tp tps ps ret :
  bind strict (fn_overload []) ∅ [TFun (tp :: tps) ps None ret]
  = Ok (ReturnsValue (TFun [] (ty_subst (degrade (tp :: tps) ∅) <$> ps) None
         (ty_subst (degrade (tp :: tps) ∅) ret))).
Proof.
  rewrite (bind_ok _ _ _
    (<["Ret" := ty_subst (degrade (tp :: tps) ∅) ret]>
       (<["Args" := TTuple (ty_subst (degrade (tp :: tps) ∅) <$> ps)]> ∅))).
  - generalize (ty_subst (degrade (tp :: tps) ∅) <$> ps) as ps'.
    generalize (ty_subst (degrade (tp :: tps) ∅) ret) as ret'.
    intros. vm_compute. reflexivity.
  - apply map_Forall_empty.
  - done.
  - done.
  - unfold bind_positional, bind_rest, bind_named, fn_overload, no_args.
    cbn [positionalArgs restArgs namedArgs fmap list_fmap zip zip_with foldl
         fst snd is_generic].
    rewrite map_to_list_empty. cbn [foldl].
    change (bool_decide (true = true)) with true.
    change (bool_decide (true = false)) with false. cbv iota.
    unfold unify_arg. cbn [bindR]. rewrite unify_fn_pattern0. reflexivity.
Qed.
Lemma ty_subst_ground σ t : ground t = true → ty_subst σ t = t.
Proof.
  revert σ.
  induction t as [| | | | | | |x|e IH|es IH|l r IHl IHr
                  |tps ps rest ret IHt IHp IHr IH]
    using ty_ind; intros σ Hg; cbn [ty_subst ground] in *; try done.
  - by rewrite IH.
  - f_equal. rewrite forallb_elem_of in Hg.
    induction IH as [|e es He _ IH]; [done|]. cbn.
    rewrite He by (apply Hg; by left). rewrite IH; [done|].
    intros x Hx. apply Hg. by right.
  - apply andb_true_iff in Hg as [Hl Hr]. by rewrite IHl, IHr.
  - apply andb_true_iff in Hg as [[[Ht Hp]%andb_true_iff Hr]%andb_true_iff Hret].
    rewrite forallb_elem_of in Ht. rewrite forallb_elem_of in Hp.
    set (σ' := foldr (λ tp m, delete tp.1 m) σ tps).
    rewrite IH by done.
    assert ((ty_subst σ' <$> ps) = ps) as ->.
    { clear Hr IHr. induction IHp as [|e es He _ IHes]; [done|]. cbn.
      rewrite He by (apply Hp; by left). rewrite IHes; [done|].
      intros x Hx. apply Hp. by right. }
    assert (((λ tp : string * ty, (tp.1, ty_subst σ' tp.2)) <$> tps) = tps)
      as ->.
    { generalize σ'. clear Hr IHr σ'.
      induction IHt as [|[x b] l Hb _ IHl]; intros σ'; [done|]. cbn in *.
      rewrite Hb by (apply (Ht (x, b)); by left). rewrite IHl; [done|].
      intros y Hy. apply Ht. by right. }
    destruct rest as [r|]; [|done].
    destruct r; cbn in *; try done; by rewrite ?IHr.
Qed.

Lemma iter_fixed {A : Type} (f : A → A) (a : A) n :
  f a = a → Nat.iter n f a = a.
Proof.
  intros Ha. induction n as [|n IH]; [done|].
  change (f (Nat.iter n f a) = a). by rewrite IH.
Qed.

Lemma degrade_ground (tps : list (string * ty)) :
  Forall (λ tp, ground tp.2 = true) tps →
  degrade tps ∅ = list_to_map tps.
Proof.
  intros Hg. unfold degrade. rewrite (left_id_L ∅ (∪)).
  rewrite dom_empty_L.
  rewrite (map_filter_id _ (list_to_map tps)) by set_solver.
  apply map_eq. intros k. rewrite lookup_fmap.
  destruct (list_to_map tps !! k) as [b|] eqn:Hk; [|done]. cbn. f_equal.
  apply elem_of_list_to_map_2 in Hk.
  rewrite Forall_forall in Hg. specialize (Hg _ Hk). cbn in Hg.
  rewrite iter_fixed by (by apply ty_subst_ground).
  rewrite (ty_subst_ground _ b) by done. by apply ty_subst_ground.
Qed.

(** C6: [fn] has one overload for each number of arguments bound in
    advance, from none to four, in this order; more than four are
    accepted by none.  Bound to a number, the function
    [(a: number, b: string) => boolean] gives a value of type
    [(b: string) => boolean].  Given a function with type parameters and
    no argument to bind, the parameters and the result of the function
    that is returned have every type parameter replaced by its declared
    bound, here for bounds that mention no type parameter:
    [<T>(v: T) => T] becomes [(v: unknown) => unknown] and
    [<T extends string>(v: T) => T[]] becomes [(v: string) => string[]].
    A bound that is another type parameter is replaced by the bound of
    that parameter, so that [<T, U extends T>(a: T, b: U) => U] becomes
    [(a: unknown, b: unknown) => unknown].  With the argument ['hello']
    the identity becomes [() => string]. *)
Theorem fn_prebinds_arguments :
  FnHelper
  = fn_overload <$> [[]; ["A"]; ["A"; "B"]; ["A"; "B"; "C"];
                     ["A"; "B"; "C"; "D"]]
  ∧ (∀ prebound,
       positionalArgs (fn_overload prebound)
       = TFun [] (TVar <$> prebound) (Some (TVar "Args")) (TVar "Ret")
         :: (TVar <$> prebound))
  ∧ (∀ f a1 a2 a3 a4 a5 more,
       call strict FnHelper ∅ (f :: a1 :: a2 :: a3 :: a4 :: a5 :: more)
       = Err ArityMismatch)
  ∧ call strict FnHelper ∅
      [TFun [] [TNumber; TString] None TBoolean; TNumber]
    = Ok (ReturnsValue (TFun [] [TString] None TBoolean))
  ∧ (∀ tp tps ps ret,
       Forall (λ b, ground b.2 = true) (tp :: tps) →
       call strict FnHelper ∅ [TFun (tp :: tps) ps None ret]
       = Ok (ReturnsValue
               (TFun []
                  (ty_subst (list_to_map (tp :: tps)) <$> ps) None
                  (ty_subst (list_to_map (tp :: tps)) ret))))
  ∧ call strict FnHelper ∅ [generic_identity]
    = Ok (ReturnsValue (TFun [] [TUnknown] None TUnknown))
  ∧ call strict FnHelper ∅
      [TFun [("T", TString)] [TVar "T"] None (TArray (TVar "T"))]
    = Ok (ReturnsValue (TFun [] [TString] None (TArray TString)))
  ∧ call strict FnHelper ∅
      [TFun [("T", TUnknown); ("U", TVar "T")] [TVar "T"; TVar "U"] None
            (TVar "U")]
    = Ok (ReturnsValue (TFun [] [TUnknown; TUnknown] None TUnknown))
  ∧ call strict FnHelper ∅ [generic_identity; TString]
    = Ok (ReturnsValue (TFun [] [] None TString)).
Proof.
  split; [reflexivity|]. split; [reflexivity|].
  split; [intros; by vm_compute|].
  split; [by destruct strict; vm_compute|].
  split; [|repeat split; by destruct strict; vm_compute].
  intros tp tps ps ret Hground. unfold FnHelper, Invokable. cbn [call].
  by rewrite bind_fn0, degrade_ground.
Qed.

(** C7: binding the iteration built-in to items of type [string[]]
    fixes [T] to [string]: its [default] block passes a string and a
    number, which are the types of the two parameters of the callback.
    Yielding the item to [out] inside the callback makes the enclosing
    body yield [BlockYield<'out', [string]>], and the template of that
    body accepts the blocks [{ out?(item: string): BlockResult }]: the
    block is optional because the yield is in the callback, which does
    not run on every path ([BlocksFromYields_optional] and
    [template_of_direct_yield] below).  This holds for [EachHelper] as
    the source declares it and for the signature as the design document
    quotes it. *)
Theorem each_yields_items :
  Forall
    (λ each,
       match call strict each ∅ [TArray TString] with
       | Ok (AcceptsBlocks declared) =>
           declared !! "default" = Some (mandatory [TString; TNumber] None)
           ∧ param_types (declared !! "default")
               (cb_params (callback ["item"; "index"] []))
             = [TString; TNumber]
       | _ => False
       end
       ∧ check_body strict ∅ (each_scenario each)
         = Ok [toBlock "out" [TString]]
       ∧ match template strict ∅ ∅ (each_scenario each) with
         | Ok [sig] =>
             completionKind sig
             = AcceptsBlocks {[ "out" := optional [TString] None ]}
         | _ => False
         end)
    [EachHelper; each_as_described].
Proof.
  apply Forall_cons_2; [|apply Forall_cons_2; [|apply Forall_nil_2]].
  all: by destruct strict; vm_compute.
Qed.

Lemma bindR_Ok {A B : Type} (m : Result A) (k : A → Result B) b :
  bindR m k = Ok b ↔ ∃ a, m = Ok a ∧ k a = Ok b.
Proof.
  destruct m as [a|e]; cbn.
  - split; [eauto|]. by intros (a' & [= <-] & H).
  - split; [done|]. by intros (a' & [=] & _).
Qed.

Lemma mapR_cons {A B : Type} (f : A → Result B) a l :
  mapR f (a :: l) = (b <- f a ;; bs <- mapR f l ;; Ok (b :: bs)).
Proof. reflexivity. Qed.

Lemma mapR_Ok {A B : Type} (f : A → Result B) l bs :
  mapR f l = Ok bs ↔ Forall2 (λ a b, f a = Ok b) l bs.
Proof.
  split.
  - revert bs. induction l as [|a l IH]; intros bs.
    + intros [= <-]. constructor.
    + rewrite mapR_cons.
      intros (b & Hb & (bs' & Hbs & [= <-])%bindR_Ok)%bindR_Ok.
      constructor; auto.
  - induction 1 as [|a b l bs' Hab _ IH]; [done|].
    rewrite mapR_cons, Hab. cbn [bindR]. by rewrite IH.
Qed.

Lemma check_body_eq Γ body :
  check_body strict Γ body
  = (yss <- mapR (check_stmt strict Γ) body ;; Ok (mjoin yss)).
Proof. reflexivity. Qed.

Lemma infer_block_eq Γ declared b :
  infer_block strict Γ declared b
  = (ys <- check_body strict
             (callback_env Γ (declared !! b.1) (cb_params b.2))
             (cb_body b.2) ;;
     Ok (b.1, {| impl_params := param_types (declared !! b.1) (cb_params b.2);
                 impl_yields := ys |})).
Proof. reflexivity. Qed.

Lemma check_stmt_invokeBlock Γ callee named positional blocks names :
  check_stmt strict Γ (SInvokeBlock callee named positional blocks names)
  = (sig <- resolve callee ;;
     nargs <- type_named Γ named ;;
     pargs <- mapR (type_of Γ) positional ;;
     value <- call strict sig nargs pargs ;;
     impls <- mapR (infer_block strict Γ (expected_blocks value)) blocks ;;
     invokeBlock strict value impls names).
Proof. reflexivity. Qed.

Lemma yields_in_singleton Γ body y :
  yields_in strict Γ body y ↔ ∃ s, s ∈ body ∧ yields_in strict Γ [s] y.
Proof.
  split.
  - intros H. destruct H as [Γ body to values Ts Hin HTs
      |Γ body callee named positional blocks names sig nargs pargs value
         name cb y Hin Hsig Hn Hp Hcall Hcb Hy].
    + eexists. split; [done|]. eapply yields_directly; [by left|done].
    + eexists. split; [done|].
      eapply yields_through_block; [by left|done..].
  - intros (s & Hs & H). inversion H as [? ? to values Ts Hin HTs
      |? ? callee named positional blocks names sig nargs pargs value
         name cb ? Hin Hsig Hn Hp Hcall Hcb Hy]; subst.
    + apply list_elem_of_singleton in Hin as <-.
      by eapply yields_directly.
    + apply list_elem_of_singleton in Hin as <-.
      by eapply yields_through_block.
Qed.

Lemma body_sound body :
  Forall (stmt_sound strict) body →
  ∀ Γ ys, check_body strict Γ body = Ok ys →
          ∀ y, y ∈ ys ↔ yields_in strict Γ body y.
Proof.
  intros Hsound Γ ys. rewrite check_body_eq.
  intros (yss & Hyss%mapR_Ok & [= <-])%bindR_Ok y.
  rewrite yields_in_singleton.
  induction Hyss as [|s zs body yss Hs _ IH]; cbn [mjoin list_join].
  - rewrite elem_of_nil. split; [done|]. by intros (s & Hs%elem_of_nil & _).
  - apply Forall_cons in Hsound as [Hhead Htail].
    rewrite elem_of_app, (Hhead _ _ Hs y), (IH Htail). split.
    + intros [H|(s' & Hs' & H)]; eexists; (split; [|done]);
        [by left|by right].
    + intros (s' & [->|Hs']%elem_of_cons & H); [by left|right; eauto].
Qed.

Lemma blocks_sound Γ declared blocks impls :
  Forall (λ b, Forall (stmt_sound strict) (cb_body b.2)) blocks →
  Forall2 (λ b i, infer_block strict Γ declared b = Ok i) blocks impls →
  ∀ y, y ∈ mjoin (YieldsFromBlock <$> impls.*2)
       ↔ ∃ n cb, (n, cb) ∈ blocks
                 ∧ yields_in strict
                     (callback_env Γ (declared !! n) (cb_params cb))
                     (cb_body cb) y.
Proof.
  intros Hsound Hinfer y.
  induction Hinfer as [|[n cb] [n' i] blocks impls Hb _ IH];
    cbn [fmap list_fmap mjoin list_join snd].
  - rewrite elem_of_nil. split; [done|].
    by intros (n & cb & Hin%elem_of_nil & _).
  - apply Forall_cons in Hsound as [Hhead Htail].
    rewrite infer_block_eq in Hb.
    apply bindR_Ok in Hb as (ys & Hys & [= <- <-]). cbn in Hys, Hhead.
    rewrite elem_of_app, (IH Htail). unfold YieldsFromBlock at 1. cbn.
    rewrite (body_sound _ Hhead _ _ Hys y). split.
    + intros [H|(n' & cb' & Hin & H)]; do 2 eexists; (split; [|done]);
        [by left|by right].
    + intros (n' & cb' & [[= -> ->]|Hin]%elem_of_cons & H);
        [by left|right; eauto].
Qed.

Lemma stmt_sound_all (s : stmt) : stmt_sound strict s.
Proof.
  induction s as [to values|callee named positional blocks names IH]
    using stmt_ind; intros Γ ys Hcheck y.
  - cbn in Hcheck. apply bindR_Ok in Hcheck as (Ts & HTs & [= <-]).
    rewrite list_elem_of_singleton. split.
    + intros ->. eapply yields_directly; [by left|done].
    + intros H. inversion H as [? ? to' values' Ts' Hin HTs'
        |? ? ? ? ? ? ? ? ? ? ? ? ? ? Hin]; subst.
      * apply list_elem_of_singleton in Hin as [= -> ->]. congruence.
      * by apply list_elem_of_singleton in Hin.
  - rewrite check_stmt_invokeBlock in Hcheck.
    apply bindR_Ok in Hcheck as (sig & Hsig & Hcheck).
    apply bindR_Ok in Hcheck as (nargs & Hn & Hcheck).
    apply bindR_Ok in Hcheck as (pargs & Hp & Hcheck).
    apply bindR_Ok in Hcheck as (value & Hcall & Hcheck).
    apply bindR_Ok in Hcheck as (impls & Himpls%mapR_Ok & Hinvoke).
    destruct value as [T|declared|]; [done| |done].
    apply invokeBlock_inv in Hinvoke as [_ ->].
    rewrite (blocks_sound _ _ _ _ IH Himpls y). split.
    + intros (n & cb & Hin & H).
      by eapply yields_through_block; [by left|..].
    + intros H. inversion H as [? ? ? ? ? Hin
        |? ? callee' named' positional' blocks' names' sig' nargs' pargs'
           value' n cb ? Hin Hsig' Hn' Hp' Hcall' Hcb Hy]; subst.
      * by apply list_elem_of_singleton in Hin.
      * apply list_elem_of_singleton in Hin as [= -> -> -> -> ->].
        assert (sig' = sig) as -> by congruence.
        assert (nargs' = nargs) as -> by congruence.
        assert (pargs' = pargs) as -> by congruence.
        assert (value' = AcceptsBlocks declared) as -> by congruence.
        eauto.
Qed.

Lemma invokeBlock_Ok value impls names ys :
  invokeBlock strict value impls names = Ok ys →
  value = AcceptsBlocks (expected_blocks value)
  ∧ ys = mjoin (YieldsFromBlock <$> impls.*2).
Proof.
  destruct value as [T|declared|]; [done| |done].
  intros [_ ->]%invokeBlock_inv. done.
Qed.

(** C2: what [invokeBlock] returns is the union of what the callbacks
    that it is given yield.  For callbacks as they are written, these
    are the yield events that occur in their bodies, each with the name
    of the block it targets and the types of its values, the events of
    nested [invokeBlock] statements included; callbacks in which no
    event occurs give the empty union.  A [yield invokeBlock(..)]
    statement contributes to its body what the call returns,
    unchanged. *)
Theorem invokeBlock_yields_union :
  (∀ value impls names ys,
     invokeBlock strict value impls names = Ok ys →
     ∀ y, y ∈ ys ↔ ∃ n i, (n, i) ∈ impls ∧ y ∈ YieldsFromBlock i)
  ∧ (∀ Γ value blocks impls names ys,
       mapR (infer_block strict Γ (expected_blocks value)) blocks = Ok impls →
       invokeBlock strict value impls names = Ok ys →
       (∀ y, y ∈ ys
             ↔ ∃ n cb, (n, cb) ∈ blocks
                       ∧ yields_in strict
                           (callback_env Γ (expected_blocks value !! n)
                                         (cb_params cb))
                           (cb_body cb) y)
       ∧ ((∀ n cb y, (n, cb) ∈ blocks →
             ¬ yields_in strict
                 (callback_env Γ (expected_blocks value !! n) (cb_params cb))
                 (cb_body cb) y) →
          ys = []))
  ∧ (∀ Γ callee named positional blocks names rest,
       check_body strict Γ
         (SInvokeBlock callee named positional blocks names :: rest)
       = (sig <- resolve callee ;;
          nargs <- type_named Γ named ;;
          pargs <- mapR (type_of Γ) positional ;;
          value <- call strict sig nargs pargs ;;
          impls <- mapR (infer_block strict Γ (expected_blocks value))
                        blocks ;;
          ys <- invokeBlock strict value impls names ;;
          zs <- check_body strict Γ rest ;;
          Ok (ys ++ zs))).
Proof.
  split; [|split].
  - intros value impls names ys [_ ->]%invokeBlock_Ok y.
    rewrite list_elem_of_join. split.
    + intros (l & Hy & (i & -> & ([n i'] & -> & Hin)%list_elem_of_fmap)
                         %list_elem_of_fmap). eauto.
    + intros (n & i & Hin & Hy). exists (YieldsFromBlock i). split; [done|].
      apply list_elem_of_fmap. exists i. split; [done|].
      apply list_elem_of_fmap. by exists (n, i).
  - intros Γ value blocks impls names ys Himpls%mapR_Ok [_ ->]%invokeBlock_Ok.
    assert (∀ y, y ∈ mjoin (YieldsFromBlock <$> impls.*2)
                 ↔ ∃ n cb, (n, cb) ∈ blocks
                           ∧ yields_in strict
                               (callback_env Γ (expected_blocks value !! n)
                                             (cb_params cb))
                               (cb_body cb) y) as Hunion.
    { apply blocks_sound; [|done].
      apply Forall_forall. intros b _. apply Forall_forall. intros s _.
      apply stmt_sound_all. }
    split; [done|].
    intros Hnone. apply elem_of_nil_inv. intros y Hy.
    apply Hunion in Hy as (n & cb & Hin & Hy). by eapply Hnone.
  - intros Γ callee named positional blocks names rest.
    rewrite !check_body_eq, mapR_cons, check_stmt_invokeBlock.
    destruct (resolve callee) as [sig|]; cbn [bindR]; [|done].
    destruct (type_named Γ named) as [nargs|]; cbn [bindR]; [|done].
    destruct (mapR (type_of Γ) positional) as [pargs|]; cbn [bindR]; [|done].
    destruct (call strict sig nargs pargs) as [value|]; cbn [bindR]; [|done].
    destruct (mapR _ blocks) as [impls|]; cbn [bindR]; [|done].
    destruct (invokeBlock strict value impls names) as [ys|]; cbn [bindR];
      [|done].
    by destruct (mapR (check_stmt strict Γ) rest) as [yss|].
Qed.

(** The blocks of a template: a block is optional unless a statement of
    the body itself yields to it. *)
Lemma BlocksFromYields_optional certain ys b e :
  BlocksFromYields strict certain ys !! b = Some e →
  block_optional e = bool_decide (b ∉ certain).
Proof.
  unfold BlocksFromYields.
  assert (∀ acc : BlockSet,
            map_Forall (λ b e, block_optional e = bool_decide (b ∉ certain))
                       acc →
            map_Forall (λ b e, block_optional e = bool_decide (b ∉ certain))
                       (foldl (add_yield strict certain) acc ys)) as H.
  { induction ys as [|y ys IH]; intros acc Hacc; [done|]. cbn [foldl].
    apply IH. unfold add_yield. by apply map_Forall_insert_2. }
  intros Hb. exact (H ∅ (map_Forall_empty _) b e Hb).
Qed.

(** A body that yields to a block itself asks its caller for that
    block. *)
Lemma template_of_direct_yield Γ args to values Ts :
  mapR (type_of Γ) values = Ok Ts →
  template strict Γ args [SYield to values]
  = Ok [ {| typeParameters := [];
            namedArgs := args;
            positionalArgs := [];
            restArgs := None;
            completionKind :=
              AcceptsBlocks {[ to := mandatory Ts None ]} |} ].
Proof.
  intros HTs. unfold template. rewrite check_body_eq.
  cbn [mapR check_stmt]. rewrite HTs. cbn [bindR].
  change (mjoin [[toBlock to Ts]]) with [toBlock to Ts].
  do 4 f_equal. unfold BlocksFromYields, yields_for_certain.
  cbn [foldl]. unfold add_yield, toBlock, mandatory.
  cbn [yield_to yield_values]. rewrite lookup_empty.
  rewrite bool_decide_eq_false_2 by (cbn; set_solver).
  by rewrite insert_empty.
Qed.

End Properties.

(* --------------------------------------------------------------------- *)
(* 7. The properties at concrete calls                                   *)
(* --------------------------------------------------------------------- *)

(** [default] alone, named, against [{ default(n: number), inverse?() }]
    conforms and is accepted. *)
Lemma dispatch_by_completion_kind_witness :
  invokeBlock true (AcceptsBlocks default_and_inverse)
    [("default", impl [TNumber])] ["default"]
  = Ok (mjoin (YieldsFromBlock <$> [("default", impl [TNumber])].*2)).
Proof.
  apply (proj1 (dispatch_by_completion_kind true
                  (AcceptsBlocks default_and_inverse))).
  apply (invokeBlock_inv true _ _ _ []). by vm_compute.
Defined.

(** The call of the test of [let] returns the one yield event of its
    callback. *)
Lemma invokeBlock_yields_union_witness :
  toBlock "body" [TNumber; TString] ∈ [toBlock "body" [TNumber; TString]]
  ↔ ∃ n cb,
           (n, cb) ∈ [("default", callback ["str"; "num"]
                                    [SYield "body" [EVar "num"; EVar "str"]])]
           ∧ yields_in true
               (callback_env ∅
                  (expected_blocks
                     (AcceptsBlocks
                        {[ "default" := mandatory [TString; TNumber] None ]})
                   !! n)
                  (cb_params cb))
               (cb_body cb) (toBlock "body" [TNumber; TString]).
Proof.
  assert (mapR (infer_block true ∅
                  (expected_blocks
                     (AcceptsBlocks
                        {[ "default" := mandatory [TString; TNumber] None ]})))
            [("default", callback ["str"; "num"]
                           [SYield "body" [EVar "num"; EVar "str"]])]
          = Ok [("default",
                 {| impl_params := [TString; TNumber];
                    impl_yields := [toBlock "body" [TNumber; TString]] |})])
    as Himpls by (vm_compute; reflexivity).
  assert (invokeBlock true
            (AcceptsBlocks
               {[ "default" := mandatory [TString; TNumber] None ]})
            [("default",
              {| impl_params := [TString; TNumber];
                 impl_yields := [toBlock "body" [TNumber; TString]] |})]
            []
          = Ok [toBlock "body" [TNumber; TString]])
    as Hcall by (vm_compute; reflexivity).
  exact (proj1 (proj1 (proj2 (invokeBlock_yields_union true))
                  _ _ _ _ _ _ Himpls Hcall)
           (toBlock "body" [TNumber; TString])).
Defined.

(** An accepted call has its mandatory block in the hash and names only
    declared blocks. *)
Lemma block_names_checked_witness :
  (∀ k e, default_and_inverse !! k = Some e → block_optional e = false →
          k ∈ [("default", impl [TNumber])].*1)
  ∧ (∀ n, n ∈ ["default"] → n ∈ dom default_and_inverse).
Proof.
  apply (proj1 (block_names_checked true) default_and_inverse
           [("default", impl [TNumber])] ["default"] []).
  by vm_compute.
Defined.

(** C3 as it is stated fails on the call of the test of [let]: the list
    of names is empty, the mandatory block [default] is therefore not
    among the names, and the call is accepted. *)
Lemma block_names_counterexample :
  check_stmt true ∅ let_test = Ok [toBlock "body" [TNumber; TString]]
  ∧ invokeBlock true
      (AcceptsBlocks {[ "default" := mandatory [TString; TNumber] None ]})
      [("default", {| impl_params := [TString; TNumber];
                      impl_yields := [toBlock "body" [TNumber; TString]] |})]
      []
    = Ok [toBlock "body" [TNumber; TString]]
  ∧ ¬ (∀ declared blocks names ys,
         invokeBlock true (AcceptsBlocks declared) blocks names = Ok ys →
         ∀ k e, declared !! k = Some e → block_optional e = false →
                k ∈ names).
Proof.
  split; [vm_compute; reflexivity|]. split; [vm_compute; reflexivity|].
  intros H.
  assert (invokeBlock true
            (AcceptsBlocks
               {[ "default" := mandatory [TString; TNumber] None ]})
            [("default", impl [TString; TNumber])] []
          = Ok []) as Hcall by (vm_compute; reflexivity).
  assert (({[ "default" := mandatory [TString; TNumber] None ]} : BlockSet)
            !! "default"
          = Some (mandatory [TString; TNumber] None))
    as Hdefault by apply lookup_singleton_eq.
  pose proof (H _ _ _ _ Hcall _ _ Hdefault eq_refl) as Hin.
  by apply elem_of_nil in Hin.
Qed.





(** Binding [target] of [MyComponent] in advance. *)
Lemma component_prebound_args_witness :
  ∃ sig,
    ComponentHelper true {[ "target" := TString ]} MyComponent
    = Ok (ReturnsValue [sig])
    ∧ dom (namedArgs sig) = dom (ArgsFor MyComponent)
    ∧ ∀ k spec,
        ArgsFor MyComponent !! k = Some spec →
        namedArgs sig !! k
        = Some (if bool_decide (k ∈ dom ({[ "target" := TString ]}
                                          : gmap string ty))
                then {| arg_optional := true; arg_type := arg_type spec |}
                else spec).
Proof.
  apply (component_prebound_args true {[ "target" := TString ]} MyComponent).
  - refine (bool_decide_unpack _ _). by vm_compute.
  - intros k a spec [<- <-]%lookup_singleton_Some Hspec.
    vm_compute in Hspec. injection Hspec as <-. by vm_compute.
Defined.

(** C5 as it is stated fails on [MyComponent] with nothing bound in
    advance: [target] is a key of the component that is not bound, and
    it stays mandatory in the signature that is returned.  When
    [target] is bound in advance, it is not removed from the shape: it
    is still accepted, as an optional argument. *)
Lemma component_prebound_args_counterexample :
  ArgsFor MyComponent
  = {[ "target" := {| arg_optional := false; arg_type := TString |} ]}
  ∧ match ComponentHelper true ∅ MyComponent with
    | Ok (ReturnsValue [sig]) =>
        namedArgs sig !! "target"
        = Some {| arg_optional := false; arg_type := TString |}
    | _ => False
    end
  ∧ match ComponentHelper true {[ "target" := TString ]} MyComponent with
    | Ok (ReturnsValue [sig]) =>
        namedArgs sig !! "target"
        = Some {| arg_optional := true; arg_type := TString |}
    | _ => False
    end.
Proof. by vm_compute. Qed.

(** The parameters [str] and [num] of the callback of the test of [let]
    are a string and a number. *)
Lemma let_passes_values_in_order_witness :
  param_types (Some (mandatory [TString; TNumber] None))
    ((λ x, (x, None)) <$> ["str"; "num"])
  = [TString; TNumber].
Proof.
  apply (proj1 (proj2 (let_passes_values_in_order true [TString; TNumber]))
           ["str"; "num"]).
  reflexivity.
Defined.

(* --------------------------------------------------------------------- *)
(* 8. Further properties of the built-ins and of invocation              *)
(* --------------------------------------------------------------------- *)

Section Further.

Variable strict : bool.

(** *** Equations of [unify] and [bind] *)

Lemma unify_var c x a σ :
  unify strict c (TVar x) a σ
  = match σ !! x with
    | Some t => if agrees strict c a t then Some σ else None
    | None => Some (<[x := a]> σ)
    end.
Proof. reflexivity. Qed.

Lemma unify_array_tuple c p es σ :
  unify strict c (TArray p) (TTuple es) σ
  = foldl (λ acc e, match acc with
                    | Some σ' => unify strict c p e σ'
                    | None => None
                    end) (Some σ) es.
Proof. reflexivity. Qed.

Lemma unify_string c a σ :
  unify strict c TString a σ
  = if agrees strict c a TString then Some σ else None.
Proof. reflexivity. Qed.

Lemma bind_positional_nil g positional σ :
  bind_positional strict g [] positional σ = σ.
Proof. reflexivity. Qed.

Lemma bind_positional_single g p a σ :
  bind_positional strict g [p] [a] σ
  = if bool_decide (is_generic a = g) then unify_arg strict p a σ else σ.
Proof. reflexivity. Qed.

Lemma bind_named_none named σ :
  bind_named strict no_args named σ = Ok σ.
Proof. unfold bind_named, no_args. by rewrite map_to_list_empty. Qed.

(** What [bind] does once the number and the names of the arguments
    are in order. *)
Lemma bind_checked sig named positional :
  map_Forall (λ k spec, arg_optional spec = true ∨ is_Some (named !! k))
             (namedArgs sig) →
  dom named ⊆ dom (namedArgs sig) →
  match restArgs sig with
  | Some _ => (length (positionalArgs sig) <=? length positional)%nat
  | None => (length (positionalArgs sig) =? length positional)%nat
  end = true →
  bind strict sig named positional
  = (σ <- bind_positional strict true (positionalArgs sig) positional
            (bind_rest strict (restArgs sig)
               (drop (length (positionalArgs sig)) positional)
               (bind_positional strict false (positionalArgs sig) positional
                  (bind_named strict (namedArgs sig) named ∅))) ;;
     Ok (completion_subst (degrade (typeParameters sig) σ)
                          (completionKind sig))).
Proof.
  intros Hmand Hknown Harity. unfold bind.
  rewrite Harity. cbn [require bindR].
  rewrite bool_decide_eq_true_2 by (by right). cbn [require bindR].
  by rewrite bool_decide_eq_true_2 by done.
Qed.

(** Type parameters that the arguments fix do not degrade. *)
Lemma degrade_fixed tps σ :
  (∀ tp, tp ∈ tps → tp.1 ∈ dom σ) → degrade tps σ = σ.
Proof.
  intros Hfixed. unfold degrade.
  rewrite (map_empty_filter_2 _ (list_to_map tps)).
  - by rewrite fmap_empty, (right_id_L ∅ (∪)).
  - intros k b Hk%elem_of_list_to_map_2 Hout. cbn in Hout.
    apply Hout, (Hfixed (k, b) Hk).
Qed.

Lemma degrade_nil σ : degrade [] σ = σ.
Proof. apply degrade_fixed. by intros tp ?%elem_of_nil. Qed.

Lemma foldl_unify_failed c p es :
  foldl (λ acc e, match acc with
                  | Some σ' => unify strict c p e σ'
                  | None => None
                  end) None es = None.
Proof. by induction es. Qed.

(** Binding keeps the completion kind of the signature. *)
Lemma bind_same_kind sig named positional value :
  bind strict sig named positional = Ok value →
  same_kind (completionKind sig) value.
Proof.
  unfold bind.
  intros (_ & _ & (_ & _ & (_ & _ & (σ & _ & [= <-])%bindR_Ok)%bindR_Ok)
                   %bindR_Ok)%bindR_Ok.
  by destruct (completionKind sig).
Qed.

Lemma call_Ok sigs named positional value :
  call strict sigs named positional = Ok value →
  ∃ sig, sig ∈ sigs ∧ bind strict sig named positional = Ok value.
Proof.
  induction sigs as [|sig sigs IH]; [done|]. cbn [call].
  destruct sigs as [|sig' sigs].
  - intros H. exists sig. split; [by left|done].
  - destruct (bind strict sig named positional) as [c|e] eqn:Hb.
    + intros [= <-]. exists sig. split; [by left|done].
    + intros H.
      destruct (call strict (sig' :: sigs) named positional) as [c|e'] eqn:Hc;
        [|by destruct e'].
      destruct (IH H) as (s & Hs & Hbs). exists s. split; [by right|done].
Qed.

(** *** [concat] *)

Lemma unify_all_strings items σ :
  foldl (λ acc e, match acc with
                  | Some σ' => unify strict false TString e σ'
                  | None => None
                  end) (Some σ) items
  = if forallb (λ a, assignable strict a TString) items
    then Some σ else None.
Proof.
  induction items as [|a items IH]; [done|]. cbn [foldl forallb].
  rewrite unify_string. unfold agrees.
  destruct (assignable strict a TString); cbn [andb]; [exact IH|].
  apply foldl_unify_failed.
Qed.

(** X1: [concat] takes any number of positional arguments, none
    included, and returns a string exactly when every one of them is
    assignable to [string]. *)
Theorem concat_takes_strings items :
  call strict ConcatHelper ∅ items
  = if forallb (λ a, assignable strict a TString) items
    then Ok (ReturnsValue TString)
    else Err ArgumentTypeMismatch.
Proof.
  unfold ConcatHelper, Invokable. cbn [call].
  rewrite bind_checked; [|apply map_Forall_empty|done|done].
  cbn [namedArgs positionalArgs restArgs typeParameters completionKind
       length].
  rewrite !bind_positional_nil, bind_named_none.
  unfold bind_rest, unify_arg. cbn [bindR].
  rewrite unify_array_tuple, unify_all_strings.
  rewrite drop_0. by destruct (forallb _ items).
Qed.

(** *** [array] *)

Lemma unify_all_agree x T items σ :
  σ !! x = Some T →
  Forall (λ a, assignable strict a T = true) items →
  foldl (λ acc e, match acc with
                  | Some σ' => unify strict false (TVar x) e σ'
                  | None => None
                  end) (Some σ) items
  = Some σ.
Proof.
  intros Hx. induction 1 as [|a items Ha _ IH]; [done|]. cbn [foldl].
  rewrite unify_var, Hx. unfold agrees. by rewrite Ha.
Qed.

(** X2: [array] returns an array of the type of its first item when
    every other item either has that type or a type that is assignable
    to it and not the other way round, whatever the number of items. *)
Theorem array_of_first_item T items :
  Forall (λ a, a = T ∨ (assignable strict a T = true
                        ∧ assignable strict T a = false)) items →
  call strict ArrayHelper ∅ (T :: items) = Ok (ReturnsValue (TArray T)).
Proof.
  intros Hitems. unfold ArrayHelper, Invokable. cbn [call].
  rewrite (bind_ok strict _ _ _ (<["T" := T]> ∅)).
  - cbn [typeParameters completionKind].
    rewrite degrade_fixed. 2:{ intros tp ->%list_elem_of_singleton. set_solver. }
    cbn. by rewrite lookup_insert_eq.
  - apply map_Forall_empty.
  - done.
  - done.
  - cbn [positionalArgs restArgs namedArgs length].
    rewrite !bind_positional_nil, bind_named_none, drop_0.
    unfold bind_rest, unify_arg. cbn [bindR].
    rewrite unify_array_tuple. cbn [foldl]. rewrite unify_var, lookup_empty.
    rewrite (unify_all_agree "T" T); [done|apply lookup_insert_eq|].
    eapply Forall_impl; [exact Hitems|]. cbn.
    intros a [->|[Ha _]]; [apply assignable_refl|done].
Qed.

(** *** [each] and [with] *)

Lemma unify_array_array c p a σ :
  unify strict c (TArray p) (TArray a) σ = unify strict c p a σ.
Proof. reflexivity. Qed.

Lemma bound_default_and_inverse x T params :
  completion_subst (degrade [(x, TUnknown)] (<[x := T]> ∅))
    (AcceptsBlocks
       (<[ "default" := mandatory (TVar x :: params) None ]>
          {[ "inverse" := optional [] None ]}))
  = AcceptsBlocks
      (<[ "default" := mandatory (T :: (ty_subst (<[x := T]> ∅) <$> params))
                                 None ]>
         {[ "inverse" := optional [] None ]}).
Proof.
  rewrite degrade_fixed. 2:{ intros tp ->%list_elem_of_singleton. set_solver. }
  cbn [completion_subst].
  rewrite fmap_insert, map_fmap_singleton. unfold entry_subst, mandatory.
  cbn. by rewrite lookup_insert_eq.
Qed.

Lemma each_bound (T : ty) :
  call strict EachHelper ∅ [TArray T] = Ok (AcceptsBlocks (each_blocks T)).
Proof.
  unfold EachHelper, Invokable. cbn [call].
  rewrite (bind_ok strict _ _ _ (<["T" := T]> ∅)).
  - cbn [typeParameters completionKind].
    by rewrite bound_default_and_inverse.
  - apply map_Forall_singleton. by left.
  - set_solver.
  - done.
  - cbn [positionalArgs restArgs namedArgs length]. unfold bind_named.
    rewrite map_to_list_singleton. cbn [foldl fst]. rewrite lookup_empty.
    rewrite !bind_positional_single. unfold bind_rest.
    destruct (is_generic (TArray T)); cbn [bool_decide];
      unfold unify_arg; cbn [bindR];
      rewrite ?bool_decide_eq_true_2, ?bool_decide_eq_false_2 by done;
      cbn [bindR]; by rewrite unify_array_array, unify_var, lookup_empty.
Qed.

(** X3: binding [each] to an array of any type [T] gives a mandatory
    [default] block of an item of type [T] and a numeric index, and an
    optional [inverse] block without parameters.  The [key] argument
    may be left out and otherwise has to be a string.  [each] takes
    exactly one positional argument, and a string or a number is not
    something to iterate over. *)
Theorem each_passes_item_and_index (T : ty) :
  call strict EachHelper ∅ [TArray T] = Ok (AcceptsBlocks (each_blocks T))
  ∧ (∀ K,
       call strict EachHelper {[ "key" := K ]} [TArray T]
       = if assignable strict K TString
         then Ok (AcceptsBlocks (each_blocks T))
         else Err ArgumentTypeMismatch)
  ∧ call strict EachHelper ∅ [] = Err ArityMismatch
  ∧ (∀ a b more,
       call strict EachHelper ∅ (a :: b :: more) = Err ArityMismatch)
  ∧ call strict EachHelper ∅ [TString] = Err ArgumentTypeMismatch
  ∧ call strict EachHelper ∅ [TNumber] = Err ArgumentTypeMismatch.
Proof.
  assert (∀ r, bind_positional strict true [TArray (TVar "T")] [TArray T]
                 (bind_rest strict None (drop 1 [TArray T])
                    (bind_positional strict false [TArray (TVar "T")]
                       [TArray T] r))
               = unify_arg strict (TVar "T") T r) as Hpos.
  { intros r. by rewrite !bind_positional_single. }
  split; [|split; [|split; [|split]]].
  - apply each_bound.
  - intros K. unfold EachHelper, Invokable. cbn [call].
    rewrite bind_checked;
      [|apply map_Forall_singleton; by left|by rewrite !dom_singleton_L|done].
    cbn [namedArgs positionalArgs restArgs typeParameters completionKind
         length]. unfold bind_named.
    rewrite map_to_list_singleton. cbn [foldl fst snd arg_type].
    rewrite lookup_singleton_eq, Hpos. unfold unify_arg. cbn [bindR].
    rewrite unify_string. unfold agrees.
    destruct (assignable strict K TString); [|done]. cbn [some_or bindR].
    rewrite unify_var, lookup_empty. cbn [some_or bindR].
    by rewrite bound_default_and_inverse.
  - by vm_compute.
  - intros a b more. by vm_compute.
  - by vm_compute.
Qed.

(** X4: binding [with] to a value of any type gives a mandatory
    [default] block of that type and an optional [inverse] block without
    parameters; [with] takes exactly one value. *)
Theorem with_passes_value (T : ty) :
  call strict WithHelper ∅ [T] = Ok (AcceptsBlocks (with_blocks T))
  ∧ call strict WithHelper ∅ [] = Err ArityMismatch
  ∧ (∀ a b more,
       call strict WithHelper ∅ (a :: b :: more) = Err ArityMismatch).
Proof.
  split; [|split; [by vm_compute|intros; by vm_compute]].
  unfold WithHelper, Invokable. cbn [call].
  rewrite (bind_ok strict _ _ _ (<["T" := T]> ∅)).
  - cbn [typeParameters completionKind].
    by rewrite bound_default_and_inverse.
  - apply map_Forall_empty.
  - done.
  - done.
  - cbn [positionalArgs restArgs namedArgs length].
    rewrite bind_named_none, !bind_positional_single.
    unfold bind_rest, unify_arg.
    destruct (is_generic T); cbn; by rewrite lookup_empty.
Qed.

(** *** The invocation form of each built-in *)

(** X5: whatever the arguments, a value that [array], [concat],
    [debugger] or [fn] has been bound to is invoked inline and in no
    other form, and one that [each], [let] or [with] has been bound to
    accepts blocks and is neither invoked inline nor as a modifier. *)
Theorem builtins_invocation_forms :
  Forall
    (λ helper,
       ∀ named positional value,
         call strict helper named positional = Ok value →
         (∃ T, invokeInline value = Ok T)
         ∧ invokeModifier value = Err NotAModifier
         ∧ ∀ blocks names,
             invokeBlock strict value blocks names = Err NotBlockAccepting)
    [ArrayHelper; ConcatHelper; DebuggerHelper; FnHelper]
  ∧ Forall
      (λ helper,
         ∀ named positional value,
           call strict helper named positional = Ok value →
           (∃ declared, value = AcceptsBlocks declared)
           ∧ invokeInline value = Err NotInvokableInline
           ∧ invokeModifier value = Err NotAModifier)
      [EachHelper; LetHelper; WithHelper].
Proof.
  split.
  - repeat apply Forall_cons_2; [..|apply Forall_nil_2].
    all: intros named positional value (sig & Hsig & Hbind)%call_Ok.
    all: apply bind_same_kind in Hbind.
    all: unfold Invokable in Hsig.
    all: repeat (apply elem_of_cons in Hsig as [->|Hsig]);
      [..|by apply elem_of_nil in Hsig].
    all: destruct value; try done; cbn; eauto.
  - repeat apply Forall_cons_2; [..|apply Forall_nil_2].
    all: intros named positional value (sig & Hsig & Hbind)%call_Ok.
    all: apply bind_same_kind in Hbind.
    all: unfold Invokable in Hsig.
    all: repeat (apply elem_of_cons in Hsig as [->|Hsig]);
      [..|by apply elem_of_nil in Hsig].
    all: destruct value; try done; cbn; eauto.
Qed.

(** *** [fn] with arguments bound in advance *)

Lemma bind_positional_cons g p ps a positional r :
  bind_positional strict g (p :: ps) (a :: positional) r
  = bind_positional strict g ps positional
      (if bool_decide (is_generic a = g) then unify_arg strict p a r else r).
Proof. reflexivity. Qed.

(** Arguments for parameters that are already fixed are only checked. *)
Lemma bind_positional_checked g σ ps positional :
  Forall2 (λ p a, unify strict false p a σ = Some σ) ps positional →
  bind_positional strict g ps positional (Ok σ) = Ok σ.
Proof.
  induction 1 as [|p a ps positional Hpa _ IH]; [done|].
  rewrite bind_positional_cons. unfold unify_arg. cbn [bindR].
  rewrite Hpa. cbn [some_or]. by destruct (bool_decide _).
Qed.

Lemma unify_checked x a p σ :
  σ !! x = Some p → assignable strict a p = true →
  unify strict false (TVar x) a σ = Some σ.
Proof. intros Hx Ha. rewrite unify_var, Hx. unfold agrees. by rewrite Ha. Qed.

Lemma fn_overload_arity prebound positional :
  length positional ≠ S (length prebound) →
  bind strict (fn_overload prebound) ∅ positional = Err ArityMismatch.
Proof.
  intros Hlen. unfold bind, fn_overload.
  cbn [namedArgs positionalArgs restArgs length].
  rewrite length_fmap.
  by rewrite (proj2 (Nat.eqb_neq _ _)) by lia.
Qed.

(** The overload for the arguments [prebound] on a function whose
    leading parameters [σ] takes from the function itself. *)
Lemma fn_overload_binds prebound f args σ ps ret :
  is_generic f = false →
  length args = length prebound →
  unify strict false
    (TFun [] (TVar <$> prebound) (Some (TVar "Args")) (TVar "Ret")) f ∅
  = Some σ →
  Forall2 (λ p a, unify strict false p a σ = Some σ)
          (TVar <$> prebound) args →
  completion_subst (degrade (typeParameters (fn_overload prebound)) σ)
    (completionKind (fn_overload prebound))
  = ReturnsValue (TFun [] ps None ret) →
  bind strict (fn_overload prebound) ∅ (f :: args)
  = Ok (ReturnsValue (TFun [] ps None ret)).
Proof.
  intros Hf Hlen Hfun Hargs Hres.
  rewrite (bind_ok strict _ _ _ σ); [by rewrite Hres| | | |].
  - apply map_Forall_empty.
  - done.
  - cbn. rewrite length_fmap, Hlen. apply Nat.eqb_refl.
  - cbn [fn_overload positionalArgs restArgs namedArgs].
    rewrite bind_named_none, !bind_positional_cons, Hf.
    change (bool_decide (false = false)) with true.
    change (bool_decide (false = true)) with false. cbv iota.
    unfold unify_arg. cbn [bindR]. rewrite Hfun. cbn [some_or].
    rewrite bind_positional_checked by done. unfold bind_rest.
    by rewrite bind_positional_checked.
Qed.

(** X6: [fn] applied to a function without type parameters and to at
    most four arguments that are assignable to its leading parameters
    returns the function of the remaining parameters with the same
    result. *)
Theorem fn_binds_leading_parameters ps ret args :
  (length args ≤ 4)%nat →
  (length args ≤ length ps)%nat →
  Forall2 (λ a p, assignable strict a p = true) args (take (length args) ps) →
  call strict FnHelper ∅ (TFun [] ps None ret :: args)
  = Ok (ReturnsValue (TFun [] (drop (length args) ps) None ret)).
Proof.
  intros Hmax Hlen Hargs. unfold FnHelper, Invokable.
  destruct args as [|a1 [|a2 [|a3 [|a4 [|a5 args]]]]]; cbn in Hmax; [..|lia].
  - cbn [call length drop].
    rewrite (fn_overload_binds [] _ _
               (<["Ret" := ret]> (<["Args" := TTuple ps]> ∅)) ps ret);
      [done|done|done|by vm_compute|constructor|by vm_compute].
  - destruct ps as [|p1 ps]; cbn in Hlen; [lia|].
    apply Forall2_cons in Hargs as [H1 _].
    cbn [call length drop].
    rewrite (fn_overload_arity []) by (cbn; lia).
    rewrite (fn_overload_binds ["A"] _ _
               (<["Ret" := ret]> (<["Args" := TTuple ps]>
                  (<["A" := p1]> ∅))) ps ret);
      [done|done|done|by vm_compute| |by vm_compute].
    repeat constructor. by apply (unify_checked _ _ p1).
  - destruct ps as [|p1 [|p2 ps]]; cbn in Hlen; [lia..|].
    apply Forall2_cons in Hargs as [H1 [H2 _]%Forall2_cons].
    cbn [call length drop].
    rewrite (fn_overload_arity []), (fn_overload_arity ["A"]) by (cbn; lia).
    rewrite (fn_overload_binds ["A"; "B"] _ _
               (<["Ret" := ret]> (<["Args" := TTuple ps]>
                  (<["B" := p2]> (<["A" := p1]> ∅)))) ps ret);
      [done|done|done|by vm_compute| |by vm_compute].
    repeat constructor;
        [by apply (unify_checked _ _ p1)|by apply (unify_checked _ _ p2)].
  - destruct ps as [|p1 [|p2 [|p3 ps]]]; cbn in Hlen; [lia..|].
    apply Forall2_cons in Hargs
      as [H1 [H2 [H3 _]%Forall2_cons]%Forall2_cons].
    cbn [call length drop].
    rewrite (fn_overload_arity []), (fn_overload_arity ["A"]),
      (fn_overload_arity ["A"; "B"]) by (cbn; lia).
    rewrite (fn_overload_binds ["A"; "B"; "C"] _ _
               (<["Ret" := ret]> (<["Args" := TTuple ps]>
                  (<["C" := p3]> (<["B" := p2]> (<["A" := p1]> ∅)))))
               ps ret);
      [done|done|done|by vm_compute| |by vm_compute].
    repeat constructor;
        [by apply (unify_checked _ _ p1)|by apply (unify_checked _ _ p2)
        |by apply (unify_checked _ _ p3)].
  - destruct ps as [|p1 [|p2 [|p3 [|p4 ps]]]]; cbn in Hlen; [lia..|].
    apply Forall2_cons in Hargs
      as [H1 [H2 [H3 [H4 _]%Forall2_cons]%Forall2_cons]%Forall2_cons].
    cbn [call length drop].
    rewrite (fn_overload_arity []), (fn_overload_arity ["A"]),
      (fn_overload_arity ["A"; "B"]), (fn_overload_arity ["A"; "B"; "C"])
      by (cbn; lia).
    rewrite (fn_overload_binds ["A"; "B"; "C"; "D"] _ _
               (<["Ret" := ret]> (<["Args" := TTuple ps]>
                  (<["D" := p4]> (<["C" := p3]> (<["B" := p2]>
                     (<["A" := p1]> ∅))))))
               ps ret);
      [done|done|done|by vm_compute| |by vm_compute].
    repeat constructor;
        [by apply (unify_checked _ _ p1)|by apply (unify_checked _ _ p2)
        |by apply (unify_checked _ _ p3)|by apply (unify_checked _ _ p4)].
Qed.

(** *** The [component] helper *)

Lemma fmap_ty_subst_empty (ps : list ty) : ty_subst ∅ <$> ps = ps.
Proof.
  induction ps as [|p ps IH]; [done|].
  by rewrite fmap_cons, ty_subst_empty, IH.
Qed.

Lemma spread_rest_empty ps rest :
  spread_rest ∅ (ty_subst ∅) ps rest = (ps, rest).
Proof.
  destruct rest as [r|]; [|done]. unfold spread_rest.
  destruct r; rewrite ?lookup_empty, ?ty_subst_empty; done.
Qed.

Lemma entry_subst_empty e : entry_subst ∅ e = e.
Proof.
  destruct e as [o ps r]. unfold entry_subst.
  cbn [block_params block_rest block_optional].
  by rewrite fmap_ty_subst_empty, spread_rest_empty.
Qed.

Lemma blocks_subst_empty (blocks : BlockSet) :
  entry_subst ∅ <$> blocks = blocks.
Proof.
  apply map_eq. intros k. rewrite lookup_fmap.
  destruct (blocks !! k); cbn; [|done]. by rewrite entry_subst_empty.
Qed.

Lemma bind_named_empty declared σ :
  bind_named strict declared ∅ σ = Ok σ.
Proof.
  unfold bind_named.
  induction (map_to_list declared) as [|ks l IH]; [done|].
  cbn [foldl]. by rewrite lookup_empty.
Qed.

Lemma bind_Ok_inv sig named positional value :
  bind strict sig named positional = Ok value →
  ∃ σ, value = completion_subst (degrade (typeParameters sig) σ)
                                (completionKind sig).
Proof.
  unfold bind.
  intros (_ & _ & (_ & _ & (_ & _ & (σ & _ & [= <-])%bindR_Ok)%bindR_Ok)
                   %bindR_Ok)%bindR_Ok.
  by exists σ.
Qed.

Lemma ComponentHelper_Ok args component :
  dom args ⊆ dom (ArgsFor component) →
  (∀ k a spec, args !! k = Some a → ArgsFor component !! k = Some spec →
     assignable strict a (arg_type spec) = true) →
  ComponentHelper strict args component
  = Ok (ReturnsValue [prebound_signature args component]).
Proof.
  intros Hdom Hty. unfold ComponentHelper. cbv zeta.
  rewrite (bool_decide_eq_true_2 (dom args ⊆ dom (ArgsFor component)))
    by done.
  cbv iota. rewrite bool_decide_eq_true_2 by (by right).
  cbn [require bindR].
  rewrite bool_decide_eq_true_2; [done|].
  intros k a Ha.
  assert (is_Some (ArgsFor component !! k)) as [spec Hs].
  { apply elem_of_dom, Hdom, elem_of_dom. eauto. }
  rewrite Hs. cbn. eauto.
Qed.

Lemma ComponentHelper_inv args component value :
  ComponentHelper strict args component = Ok value →
  value = ReturnsValue [prebound_signature args component].
Proof.
  unfold ComponentHelper. cbv zeta.
  destruct (decide (dom args ⊆ dom (ArgsFor component))) as [Hsub|Hsub];
    [rewrite (bool_decide_eq_true_2 _ Hsub)
    |rewrite (bool_decide_eq_false_2 _ Hsub)]; cbv iota.
  - destruct (bool_decide (_ ∨ _)); cbn [require bindR]; [|done].
    destruct (bool_decide (map_Forall _ args)); cbn [require bindR]; [|done].
    by intros [= <-].
  - case_bool_decide as Hg; cbn [require bindR]; [|done].
    destruct Hg as [Hempty%dom_empty_iff_L|?]; [|done].
    destruct (bool_decide (map_Forall _ args)); cbn [require bindR]; [|done].
    intros [= <-]. unfold prebound_signature, intersect, Omit, Pick, Partial.
    by rewrite Hempty, !map_filter_empty.
Qed.

(** X7: bound to a component without any named argument, the
    [component] helper returns the signature of the component itself,
    provided that signature has no type parameters, accepts blocks, and
    does not take both named and positional arguments. *)
Theorem component_without_prebinding sig blocks :
  typeParameters sig = [] →
  completionKind sig = AcceptsBlocks blocks →
  positionalArgs sig = [] ∨ namedArgs sig = ∅ →
  ComponentHelper strict ∅ (HasSignature [sig]) = Ok (ReturnsValue [sig]).
Proof.
  intros Htps Hkind Hshape.
  assert (erased sig = ∅) as Herased by (unfold erased; by rewrite Htps).
  assert (ArgsFor (HasSignature [sig]) = namedArgs sig) as Hargs.
  { unfold ArgsFor. cbn [ResolveSignature last]. rewrite Herased.
    assert ((λ a, {| arg_optional := arg_optional a;
                     arg_type := ty_subst ∅ (arg_type a) |})
            <$> namedArgs sig = namedArgs sig) as Hid.
    { apply map_eq. intros k. rewrite lookup_fmap.
      destruct (namedArgs sig !! k) as [[o t]|]; cbn; [|done].
      by rewrite ty_subst_empty. }
    destruct Hshape as [->|Hnone]; [done|].
    destruct (positionalArgs sig); [done|]. by rewrite Hnone. }
  rewrite ComponentHelper_Ok; [|set_solver|intros k a spec; by rewrite lookup_empty].
  do 3 f_equal. unfold prebound_signature, PositionalFor, BlocksFor.
  cbn [ResolveSignature last]. rewrite Hargs, Herased, Hkind.
  rewrite fmap_ty_subst_empty, spread_rest_empty, blocks_subst_empty.
  cbn [fst snd]. destruct sig as [tps named positional rest kind].
  cbn in *. subst tps kind. f_equal.
  apply map_eq. intros k. rewrite lookup_prebound.
  rewrite bool_decide_eq_false_2 by set_solver.
  by destruct (named !! k).
Qed.

(** X8: once every mandatory named argument of a component is bound in
    advance, what the [component] helper returns for a component
    without positional arguments is invoked without any argument, and
    accepts the blocks of the component. *)
Theorem component_prebinding_all_mandatory args component :
  dom args ⊆ dom (ArgsFor component) →
  (∀ k a spec, args !! k = Some a → ArgsFor component !! k = Some spec →
     assignable strict a (arg_type spec) = true) →
  (∀ k spec, ArgsFor component !! k = Some spec →
     arg_optional spec = false → k ∈ dom args) →
  PositionalFor component = ([], None) →
  ∃ sigs,
    ComponentHelper strict args component = Ok (ReturnsValue sigs)
    ∧ call strict sigs ∅ [] = Ok (AcceptsBlocks (BlocksFor component)).
Proof.
  intros Hdom Hty Hmand Hpos. eexists. split; [by apply ComponentHelper_Ok|].
  cbn [call]. rewrite (bind_ok strict _ _ _ ∅).
  - cbn [prebound_signature typeParameters completionKind].
    rewrite degrade_nil. cbn [completion_subst].
    by rewrite blocks_subst_empty.
  - cbn [prebound_signature namedArgs]. intros k spec'.
    rewrite lookup_prebound. destruct (ArgsFor component !! k) as [spec|] eqn:Hk;
      cbn; [|done].
    intros [= <-]. case_bool_decide as Hin; [by left|]. left.
    destruct (arg_optional spec) eqn:Ho; [done|].
    destruct Hin. eauto.
  - set_solver.
  - cbn [prebound_signature positionalArgs restArgs]. by rewrite Hpos.
  - cbn [prebound_signature positionalArgs restArgs namedArgs].
    rewrite Hpos. cbn [fst snd length drop].
    by rewrite !bind_positional_nil, bind_named_empty.
Qed.


(** X10: whatever is bound in advance, what the [component] helper
    returns is invoked inline, and what the signature it returns yields
    for any arguments accepts blocks with the names of the blocks of the
    component, and is neither invoked inline nor as a modifier. *)
Theorem component_result_accepts_blocks args component value :
  ComponentHelper strict args component = Ok value →
  ∃ sigs,
    invokeInline value = Ok sigs
    ∧ invokeModifier value = Err NotAModifier
    ∧ ∀ named positional result,
        call strict sigs named positional = Ok result →
        ∃ declared,
          result = AcceptsBlocks declared
          ∧ dom declared = dom (BlocksFor component)
          ∧ invokeInline result = Err NotInvokableInline
          ∧ invokeModifier result = Err NotAModifier.
Proof.
  intros ->%ComponentHelper_inv. eexists. split; [done|]. split; [done|].
  intros named positional result. cbn [call].
  intros [σ ->]%bind_Ok_inv.
  cbn [prebound_signature completionKind completion_subst].
  eexists. split; [done|]. split; [|done].
  by rewrite dom_fmap_L.
Qed.

(** *** Blocks that the value does not declare *)

(** X11: [invokeBlock] does not look at a callback under a name that
    the value does not declare, provided that the hash has a callback
    under a declared name as well, or that the declared blocks are not
    all optional: the call is accepted when the call without this
    callback is, and what the callback yields is then part of the
    result; it is rejected when the call without it is.  When the
    declared blocks are all optional and the hash has callbacks under
    undeclared names only, the call is rejected. *)
Theorem undeclared_block_unchecked declared before after names n i :
  n ∉ dom declared →
  ((∃ m, m ∈ (before ++ after).*1 ∧ m ∈ dom declared)
   ∨ weak declared = false →
   match invokeBlock strict (AcceptsBlocks declared) (before ++ after) names
   with
   | Ok _ =>
       invokeBlock strict (AcceptsBlocks declared)
         (before ++ (n, i) :: after) names
       = Ok (mjoin (YieldsFromBlock <$> (before ++ (n, i) :: after).*2))
   | Err _ =>
       ∃ e, invokeBlock strict (AcceptsBlocks declared)
              (before ++ (n, i) :: after) names
            = Err e
   end)
  ∧ (weak declared = true →
     (∀ m, m ∈ (before ++ after).*1 → m ∉ dom declared) →
     invokeBlock strict (AcceptsBlocks declared) (before ++ (n, i) :: after)
       names
     = Err BlockNameMismatch).
Proof.
  intros Hn. split.
  - intros Hcommon.
    assert (invokeBlock strict (AcceptsBlocks declared)
              (before ++ (n, i) :: after) names
            = (_ <- invokeBlock strict (AcceptsBlocks declared)
                      (before ++ after) names ;;
               Ok (mjoin (YieldsFromBlock
                            <$> (before ++ (n, i) :: after).*2)))) as ->.
    2:{ destruct (invokeBlock strict (AcceptsBlocks declared)
                    (before ++ after) names); cbn [bindR]; eauto. }
    unfold invokeBlock.
    destruct (forallb _ names); cbn [require bindR]; [|done].
    rewrite (bool_decide_ext
               (map_Forall (λ k e, block_optional e = true
                                   ∨ k ∈ (before ++ (n, i) :: after).*1)
                           declared)
               (map_Forall (λ k e, block_optional e = true
                                   ∨ k ∈ (before ++ after).*1) declared)).
    2:{ apply forall_proper; intros k. apply forall_proper; intros e.
        split; intros H Hk; (destruct (H Hk) as [Ho|Hin]; [by left|right]).
        - rewrite fmap_app, fmap_cons in Hin. rewrite fmap_app.
          set_unfold. destruct Hin as [?|[->|?]]; [by left| |by right].
          destruct Hn. apply elem_of_dom. eauto.
        - rewrite fmap_app in Hin. rewrite fmap_app, fmap_cons.
          set_unfold. tauto. }
    destruct (bool_decide _); cbn [require bindR]; [|done].
    assert (negb (weak declared)
            || in_common declared (before ++ (n, i) :: after) = true
            ∧ negb (weak declared) || in_common declared (before ++ after)
              = true) as [-> ->].
    { destruct Hcommon as [(m & Hm & Hd) | ->]; [|done].
      split; apply orb_true_iff; right; apply in_common_spec; intros _;
        exists m; (split; [|done]).
      - rewrite fmap_app, fmap_cons. rewrite fmap_app in Hm.
        set_unfold. tauto.
      - done. }
    cbn [require bindR].
    rewrite !forallb_app. cbn [forallb fst].
    rewrite (proj1 (not_elem_of_dom declared n) Hn). cbn [andb].
    by destruct (forallb _ before), (forallb _ after).
  - intros Hweak Hnone. unfold invokeBlock.
    destruct (forallb _ names); cbn [require bindR]; [|done].
    destruct (bool_decide _); cbn [require bindR]; [|done].
    rewrite Hweak. cbn [negb orb].
    destruct (in_common declared (before ++ (n, i) :: after)) eqn:Hc; [|done].
    apply in_common_spec in Hc as (m & Hm & Hd); [|by destruct before].
    rewrite fmap_app, fmap_cons in Hm. set_unfold in Hm.
    destruct Hm as [Hm|[->|Hm]]; [|done|].
    + destruct (Hnone m); [|done]. rewrite fmap_app. set_unfold. tauto.
    + destruct (Hnone m); [|done]. rewrite fmap_app. set_unfold. tauto.
Qed.

(** *** The item of [each] in the body of its block *)

(** X12: whatever the type [T] of the items, a body that iterates over
    them with [each] and yields the item to a block of its caller
    yields [T] to that block: the first parameter of the callback, left
    unannotated, has the type of the items. *)
Theorem each_yields_any_item Γ T item index to :
  item ≠ index →
  check_stmt strict Γ
    (SInvokeBlock (HasSignature EachHelper) ∅ [EOfType (TArray T)]
       [("default", callback [item; index] [SYield to [EVar item]])]
       ["default"])
  = Ok [toBlock to [T]].
Proof.
  intros Hne. rewrite check_stmt_invokeBlock. cbn [resolve bindR].
  assert (type_named Γ ∅ = Ok ∅) as ->.
  { unfold type_named. by rewrite map_to_list_empty. }
  cbn [bindR mapR type_of]. rewrite each_bound. cbn [bindR expected_blocks].
  assert (each_blocks T !! "default" = Some (mandatory [T; TNumber] None))
    as Hdefault by apply lookup_insert_eq.
  rewrite infer_block_eq.
  cbn [fst snd callback cb_params cb_body]. rewrite Hdefault.
  change (param_types (Some (mandatory [T; TNumber] None))
            ((λ x, (x, None)) <$> [item; index])) with [T; TNumber].
  change (callback_env Γ (Some (mandatory [T; TNumber] None))
            ((λ x, (x, None)) <$> [item; index]))
    with (<[index := TNumber]> (<[item := T]> Γ)).
  rewrite check_body_eq. cbn [mapR check_stmt type_of bindR].
  rewrite lookup_insert_ne, lookup_insert_eq by done.
  cbn [some_or bindR mjoin app].

  rewrite invokeBlock_conforms; [done|]. split; [|split; [|split]].
  - intros n ->%list_elem_of_singleton. apply elem_of_dom. eauto.
  - intros k e Hk Ho. unfold each_blocks in Hk.
    destruct (decide (k = "default")) as [->|Hkd]; [by left|].
    rewrite lookup_insert_ne in Hk by done.
    apply lookup_singleton_Some in Hk as [<- <-]. done.
  - intros n i e [= -> ->]%list_elem_of_singleton.
    rewrite Hdefault. intros [= <-].
    apply (unannotated_accepted strict (mandatory [T; TNumber] None)
             [item; index]). cbn. lia.
  - intros _ Hall. by specialize (Hall _ _ Hdefault).
Qed.

End Further.

(* --------------------------------------------------------------------- *)
(* 9. The further properties at concrete calls                           *)
(* --------------------------------------------------------------------- *)

(** An array of [string | number] from an item of that type, a string
    and another item of that type. *)
Lemma array_of_first_item_witness :
  call true ArrayHelper ∅
    [TUnion TString TNumber; TString; TUnion TString TNumber]
  = Ok (ReturnsValue (TArray (TUnion TString TNumber))).
Proof.
  apply (array_of_first_item true (TUnion TString TNumber)
           [TString; TUnion TString TNumber]).
  apply Forall_cons_2; [right; split; by vm_compute|].
  apply Forall_cons_2; [by left|]. apply Forall_nil_2.
Defined.

(** Binding the first two of three parameters. *)
Lemma fn_binds_leading_parameters_witness :
  call true FnHelper ∅
    [TFun [] [TNumber; TString; TBoolean] None TVoid; TNumber; TString]
  = Ok (ReturnsValue (TFun [] [TBoolean] None TVoid)).
Proof.
  apply (fn_binds_leading_parameters true [TNumber; TString; TBoolean] TVoid
           [TNumber; TString]).
  - cbn. lia.
  - cbn. lia.
  - cbn. apply Forall2_cons_2; [by vm_compute|].
    apply Forall2_cons_2; [by vm_compute|]. apply Forall2_nil_2.
Defined.

(** [MyComponent] with nothing bound in advance. *)
Lemma component_without_prebinding_witness :
  match MyComponent with
  | HasSignature sigs =>
      ComponentHelper true ∅ MyComponent = Ok (ReturnsValue sigs)
  | PlainValue _ => False
  end.
Proof.
  unfold MyComponent.
  apply (component_without_prebinding true _
           {[ "default" := optional [TString] None ]});
    [reflexivity|reflexivity|by left].
Defined.

Lemma ArgsFor_MyComponent :
  ArgsFor MyComponent
  = {[ "target" := {| arg_optional := false; arg_type := TString |} ]}.
Proof. by vm_compute. Qed.

(** [MyComponent] with [target], its one mandatory argument, bound in
    advance. *)
Lemma component_prebinding_all_mandatory_witness :
  ∃ sigs,
    ComponentHelper true {[ "target" := TString ]} MyComponent
    = Ok (ReturnsValue sigs)
    ∧ call true sigs ∅ [] = Ok (AcceptsBlocks (BlocksFor MyComponent)).
Proof.
  apply (component_prebinding_all_mandatory true {[ "target" := TString ]}
           MyComponent).
  - refine (bool_decide_unpack _ _). by vm_compute.
  - intros k a spec [<- <-]%lookup_singleton_Some.
    rewrite ArgsFor_MyComponent, lookup_singleton_eq. intros [= <-].
    by vm_compute.
  - intros k spec. rewrite ArgsFor_MyComponent.
    intros [<- _]%lookup_singleton_Some _. set_solver.
  - by vm_compute.
Defined.


(** What the [component] helper returns for [MyComponent] with [target]
    bound in advance. *)
Lemma component_result_accepts_blocks_witness :
  ∃ sigs,
    invokeInline
      (ReturnsValue [prebound_signature {[ "target" := TString ]} MyComponent])
    = Ok sigs
    ∧ invokeModifier
        (ReturnsValue
           [prebound_signature {[ "target" := TString ]} MyComponent])
      = Err NotAModifier
    ∧ ∀ named positional result,
        call true sigs named positional = Ok result →
        ∃ declared,
          result = AcceptsBlocks declared
          ∧ dom declared = dom (BlocksFor MyComponent)
          ∧ invokeInline result = Err NotInvokableInline
          ∧ invokeModifier result = Err NotAModifier.
Proof.
  apply (component_result_accepts_blocks true {[ "target" := TString ]}
           MyComponent).
  apply ComponentHelper_Ok.
  - refine (bool_decide_unpack _ _). by vm_compute.
  - intros k a spec [<- <-]%lookup_singleton_Some.
    rewrite ArgsFor_MyComponent, lookup_singleton_eq. intros [= <-].
    by vm_compute.
Defined.

(** A callback under the name [extra], which [default_and_inverse] does
    not declare, next to the callback of [default]: the call is
    accepted. *)
Lemma undeclared_block_unchecked_witness :
  invokeBlock true (AcceptsBlocks default_and_inverse)
    ([("default", impl [TNumber])] ++ [("extra", impl [TString])]) []
  = Ok (mjoin (YieldsFromBlock
                 <$> ([("default", impl [TNumber])]
                        ++ [("extra", impl [TString])]).*2)).
Proof.
  assert (invokeBlock true (AcceptsBlocks default_and_inverse)
            ([("default", impl [TNumber])] ++ []) [] = Ok []) as Hwithout
    by (by vm_compute).
  pose proof (proj1 (undeclared_block_unchecked true default_and_inverse
                       [("default", impl [TNumber])] [] [] "extra"
                       (impl [TString])
                       ltac:(refine (bool_decide_unpack _ _); by vm_compute)))
    as H.
  rewrite Hwithout in H. apply H.
  left. exists "default". split; [by left|].
  refine (bool_decide_unpack _ _). by vm_compute.
Defined.

(** Iterating over strings. *)
Lemma each_yields_any_item_witness :
  check_stmt true ∅
    (SInvokeBlock (HasSignature EachHelper) ∅ [EOfType (TArray TString)]
       [("default", callback ["item"; "index"] [SYield "out" [EVar "item"]])]
       ["default"])
  = Ok [toBlock "out" [TString]].
Proof.
  apply (each_yields_any_item true ∅ TString "item" "index" "out").
  discriminate.
Defined.
